(** * Supply-Chain (script.js): shipping-cost estimator and route planner

    A shallow embedding of the algorithmic parts of [src/script.js] and the
    properties the specification states about them.

    - JavaScript Numbers are IEEE 754 binary64 values: Rocq's primitive
      [float], with the operators [+ - * /] and the comparison [<] of the
      source mapped to [PrimFloat]'s.
    - The builtins whose results ECMAScript leaves to the engine
      ([Math.sin], [Math.cos], [Math.atan2], [parseFloat],
      [encodeURIComponent]) are the fields of a [Runtime]; every definition of
      the program is parametric in it.  [Math.round], [Math.PI] and
      [Math.sqrt] are fixed by ECMAScript / IEEE 754 and are defined here.
    - JavaScript strings are modelled by [string], one [ascii] per UTF-16 code
      unit (code units below 256).
    - Objects used as dictionaries ([cityCache], [shippingRates]) are [gmap]s
      read through [js_get], which also sees the members every object
      inherits from [Object.prototype]. *)

From Stdlib Require Import ZArith Floats Lia Ascii.
From Stdlib Require Uint63.
From stdpp Require Import gmap strings list pretty.

#[local] Set Warnings "-inexact-float,-clear-no-such-hyp".

(* ===================================================================== *)
(** * JavaScript values used by the program *)
(* ===================================================================== *)

Module JS.

  (** [Math.PI]: the binary64 value nearest to pi. *)
Definition Math_PI : float := 0x1.921fb54442d18p+1%float.

  (** [Math.sqrt]: the correctly rounded IEEE 754 square root. *)
Definition Math_sqrt (x : float) : float := PrimFloat.sqrt x.

  (** The integer [n] as a Number; exact for [|n| < 2^53]. *)
Definition of_Z (n : Z) : float :=
    match n with
    | Z0 => 0%float
    | Zpos _ => of_uint63 (Uint63.of_Z n)
    | Zneg p => (- of_uint63 (Uint63.of_Z (Zpos p)))%float
    end.

  (** [Math.round] (ECMA-262, 21.3.2.28): a Number that is not finite or is
      integral is returned as it is; otherwise the result is the integer
      closest to [x], a tie going towards +infinity, and a result of
      magnitude zero keeps the sign of [x].  For a finite [x = ±m·2^e] with
      [e < 0] the closest integer is [floor (x + 1/2)], computed exactly on
      integers. *)
Definition Math_round (x : float) : float :=
    match Prim2SF x with
    | S754_finite s m e =>
        if (0 <=? e)%Z then x
        else
          let v := if s then Zneg m else Zpos m in
          let n := ((2 * v + 2 ^ (- e)) / 2 ^ (1 - e))%Z in
          if (n =? 0)%Z then (if s then (-0)%float else 0%float) else of_Z n
    | _ => x
    end.

  (** [ToBoolean] on a Number: false for NaN, +0 and -0. *)
Definition truthy_number (x : float) : bool :=
    negb (is_nan x || PrimFloat.is_zero x).

  (** [ToBoolean] on a String: false for the empty string. *)
Definition truthy_string (s : string) : bool :=
    match s with EmptyString => false | _ => true end.

  (** A property that may be absent ([undefined]) and holds a String
      otherwise: [a || b] keeps [a] when it is truthy. *)
Definition truthy_opt (o : option string) : bool :=
    match o with Some s => truthy_string s | None => false end.

Definition or_else (a b : option string) : option string :=
    if truthy_opt a then a else b.

  (** Template-literal interpolation of a possibly undefined String. *)
Definition to_string (o : option string) : string :=
    match o with Some s => s | None => "undefined" end.

  (** The names every ordinary object inherits from [Object.prototype]
      (ECMA-262, 20.1.3 and Annex B.2.2); each holds a function, or for
      [__proto__] the prototype object itself, so each is truthy. *)
Definition Object_prototype_keys : list string :=
    [ "constructor"; "hasOwnProperty"; "isPrototypeOf";
      "propertyIsEnumerable"; "toLocaleString"; "toString"; "valueOf";
      "__proto__"; "__defineGetter__"; "__defineSetter__";
      "__lookupGetter__"; "__lookupSetter__" ].

  (** The result of reading [obj[key]] on an object literal used as a
      dictionary. *)
Inductive Property (A : Type) : Type :=
  | Own (a : A)
  | Inherited (key : string)
  | Undefined.
  Arguments Own {A} a.
  Arguments Inherited {A} key.
  Arguments Undefined {A}.

Definition js_get {A} (obj : gmap string A) (key : string) : Property A :=
    match obj !! key with
    | Some a => Own a
    | None =>
        if bool_decide (key ∈ Object_prototype_keys) then Inherited key
        else Undefined
    end.

  (** How a call ends: with a value, or with a thrown [TypeError]. *)
Inductive Completion (A : Type) : Type :=
  | Normal (a : A)
  | ThrowTypeError.
  Arguments Normal {A} a.
  Arguments ThrowTypeError {A}.

End JS.
Import JS.

(** The engine-defined builtins the program calls. *)
Class Runtime : Type := {
  Math_sin : float -> float;
  Math_cos : float -> float;
  Math_atan2 : float -> float -> float;
  parseFloat : string -> float;
  encodeURIComponent : string -> string
}.

(* ===================================================================== *)
(** * Data model *)
(* ===================================================================== *)

(** The object [geocodeCanadianLocation] builds for each result
    (script.js, lines 59-67).  [id] is Nominatim's integer [place_id]. *)
Module Location.
Record t : Type := mk {
    name : string;
    fullName : string;
    lat : float;
    lng : float;
    id : Z;
    type : string;
    postcode : option string
  }.
End Location.
Abbreviation Location := Location.t.

(** An entry of [shippingRates] (script.js, lines 156-160). *)
Record Rates : Type := {
  baseCost : float;
  perKm : float;
  perPound : float;
  days : float * float
}.

Definition standard : Rates :=
  {| baseCost := 18; perKm := 0.65; perPound := 0.15; days := (3, 5) |}%float.
Definition express : Rates :=
  {| baseCost := 42; perKm := 0.95; perPound := 0.22; days := (1, 2) |}%float.
Definition overnight : Rates :=
  {| baseCost := 85; perKm := 1.45; perPound := 0.40; days := (1, 1) |}%float.

Definition shippingRates : gmap string Rates :=
  <["standard" := standard]>
    (<["express" := express]> (<["overnight" := overnight]> ∅)).

(** The object [calculateShippingCost] returns; [deliveryDays] is [None]
    when [rates.days] is [undefined]. *)
Record ShippingResult : Type := {
  cost : float;
  distance : float;
  deliveryDays : option (float * float)
}.

(** The object [optimizeRoute] returns. *)
Record RouteResult : Type := {
  route : list Location;
  totalDistance : float
}.

(** ** The geocoding service's answer

    The response shape script.js assumes (lines 46-67): a list of objects
    with [display_name], [lat], [lon] (Strings), [place_id], [type] and an
    optional [address] whose members may each be absent. *)
Module Address.
Record t : Type := mk {
    city : option string;
    town : option string;
    village : option string;
    state : option string;
    province : option string;
    postcode : option string
  }.
  (** [{}] *)
Definition empty : t := mk None None None None None None.
End Address.

Module Item.
Record t : Type := mk {
    address : option Address.t;
    display_name : string;
    lat : string;
    lon : string;
    place_id : Z;
    type : string
  }.
End Item.

(** What [await fetch(url)] followed by [await response.json()] and
    [data.map] amounts to: the request is rejected, the body is not the JSON
    of a list, or it is a list of items. *)
Inductive Response : Type :=
| NetworkFailure
| ParseFailure
| JsonArray (data : list Item.t).

(** The page's state as far as the geocoding client touches it: the
    module-level [cityCache], the answers the network will give to the next
    requests (in order; none left means the request is rejected), and the
    URLs requested so far, oldest first. *)
Module World.
Record t : Type := mk {
    cityCache : gmap string (list Location);
    network : list Response;
    requests : list string
  }.
End World.
Abbreviation World := World.t.

(** The value a call of [geocodeCanadianLocation] resolves to: a list of
    locations, or, when the query names a member [cityCache] inherits from
    [Object.prototype], that member. *)
Inductive GeoValue : Type :=
| Locations (l : list Location)
| PrototypeMember (key : string).

(** ** The page

    [selectedCities] (script.js, lines 3-8); [null] is [None]. *)
Module SelectedCities.
Record t : Type := mk {
    origin : option Location;
    destination : option Location;
    start : option Location;
    stops : list Location
  }.
End SelectedCities.

(** The text [deliveryTime] is set to (script.js, lines 316-319):
    [`${d} day`], with an [s] appended when [plural], or [`${d0}-${d1} days`]. *)
Inductive DeliveryTime : Type :=
| SingleDay (d : float) (plural : bool)
| DayRange (d0 d1 : float).

(** What the shipping form's submit handler does to the page, in order.
    [SetShippingCost c] stands for setting the text to
    [`$${c.toFixed(2)} CAD`] and [SetDistance d] for [`${d} km`]. *)
Inductive Event : Type :=
| Alert (msg : string)
| SetShippingCost (c : float)
| SetDeliveryTime (t : DeliveryTime)
| SetDistance (d : float)
| ShowShippingResults
| UncaughtTypeError.

(** ** The rest of the page: stops, selections, the route form *)

Module Builtins.

  (** [Number.prototype.toString] on an integer id: its decimal numeral
      (ECMA-262, 6.1.6.1.20, for integers below 10^21). *)
Definition toString (n : Z) : string := pretty n.

  (** [Math.max] of two Numbers (ECMA-262, 21.3.2.24): NaN when either is
      NaN, and +0 is larger than -0. *)
Definition Math_max (x y : float) : float :=
    if is_nan x || is_nan y then nan
    else if (x <? y)%float then y
    else if (y <? x)%float then x
    else if get_sign x then y else x.

  (** [setTimeout]'s delay: a negative delay is served as 0. *)
Definition timer_delay (wait : Z) : Z := Z.max 0 wait.

End Builtins.
Import Builtins.

(** An entry of the rendered stops list (script.js, lines 201-212): the
    stop's name, and the id its Remove button passes to [removeStop]. *)
Record StopItem : Type := {
  item_name : string;
  item_id : Z
}.

(** What the selection handlers do to the document, in order. *)
Inductive DomEvent : Type :=
| SetValue (elementId value : string)
| Hide (elementId : string)
| RenderStops (items : list StopItem).

(** What the route form's submit handler does to the page, in order.
    [RenderRoute] carries the step numbers and names appended to
    [routeOrder]; [SetTotalCost c] stands for [`$${c.toFixed(2)} CAD`], and
    likewise for the other texts. *)
Inductive RouteEvent : Type :=
| RouteAlert (msg : string)
| RenderRoute (steps : list (nat * string))
| SetTotalDistance (d : float)
| SetTotalCost (c : float)
| SetTotalTime (t : float)
| ShowRouteResults
| RouteTypeError.

(* ===================================================================== *)
(** * Regular expressions, as far as [postalCodeRegex] uses them *)
(* ===================================================================== *)

Module RegExp.

  (** Character classes and the pattern syntax of script.js, line 11:
      character classes, concatenation and [?], and for the matcher's own
      use the empty word. *)
Inductive t : Type :=
  | Empty
  | Class (p : ascii -> bool)
  | Seq (r1 r2 : t)
  | Opt (r : t).

Fixpoint nullable (r : t) : bool :=
    match r with
    | Empty => true
    | Class _ => false
    | Seq r1 r2 => nullable r1 && nullable r2
    | Opt _ => true
    end.

  (** A pattern for the alternative of two patterns is not part of the
      syntax above; the derivative of a concatenation needs one, so the
      matcher follows a list of patterns at once. *)
Fixpoint deriv (c : ascii) (r : t) : list t :=
    match r with
    | Empty => []
    | Class p => if p c then [Empty] else []
    | Seq r1 r2 =>
        map (fun r1' => Seq r1' r2) (deriv c r1) ++
        (if nullable r1 then deriv c r2 else [])
    | Opt r => deriv c r
    end.

Fixpoint matches (rs : list t) (s : string) : bool :=
    match s with
    | EmptyString => existsb nullable rs
    | String c s' => matches (flat_map (deriv c) rs) s'
    end.

  (** [/^r$/.test(s)]: without the [m] flag the anchors are the two ends of
      the input, so the whole of [s] has to match [r]. *)
Definition test (r : t) (s : string) : bool := matches [r] s.

Definition code (c : ascii) : N := N_of_ascii c.

  (** [[A-Za-z]] *)
Definition letter (c : ascii) : bool :=
    ((65 <=? code c) && (code c <=? 90) || (97 <=? code c) && (code c <=? 122))%N.

  (** [\d] *)
Definition digit (c : ascii) : bool :=
    ((48 <=? code c) && (code c <=? 57))%N.

  (** [[ -]] *)
Definition space_or_hyphen (c : ascii) : bool :=
    ((code c =? 32) || (code c =? 45))%N.

  (** [\s] (ECMA-262 WhiteSpace and LineTerminator) on code units below
      256: TAB, LF, VT, FF, CR, SP and NBSP. *)
Definition white_space (c : ascii) : bool :=
    ((9 <=? code c) && (code c <=? 13) || (code c =? 32) || (code c =? 160))%N.

  (** [s.replace(/\s/g, '')] *)
Fixpoint remove_white_space (s : string) : string :=
    match s with
    | EmptyString => EmptyString
    | String c s' =>
        if white_space c then remove_white_space s'
        else String c (remove_white_space s')
    end.

End RegExp.

(** script.js, line 11: [/^[A-Za-z]\d[A-Za-z][ -]?\d[A-Za-z]\d$/]. *)
Definition postalCodeRegex : RegExp.t :=
  RegExp.Seq (RegExp.Class RegExp.letter)
  (RegExp.Seq (RegExp.Class RegExp.digit)
  (RegExp.Seq (RegExp.Class RegExp.letter)
  (RegExp.Seq (RegExp.Opt (RegExp.Class RegExp.space_or_hyphen))
  (RegExp.Seq (RegExp.Class RegExp.digit)
  (RegExp.Seq (RegExp.Class RegExp.letter)
              (RegExp.Class RegExp.digit)))))).

(** script.js, lines 27-29. *)
Definition isPostalCode (input : string) : bool :=
  RegExp.test postalCodeRegex (RegExp.remove_white_space input).

(* ===================================================================== *)
(** * The program *)
(* ===================================================================== *)

Section Program.
  Context {RT : Runtime}.
  Local Open Scope float_scope.

  (** script.js, lines 79-88. *)
Definition calculateDistance (lat1 lng1 lat2 lng2 : float) : float :=
    let R := 6371 in
    let dLat := (lat2 - lat1) * Math_PI / 180 in
    let dLng := (lng2 - lng1) * Math_PI / 180 in
    let a := Math_sin (dLat / 2) * Math_sin (dLat / 2) +
             Math_cos (lat1 * Math_PI / 180) * Math_cos (lat2 * Math_PI / 180) *
             Math_sin (dLng / 2) * Math_sin (dLng / 2) in
    let c := 2 * Math_atan2 (Math_sqrt a) (Math_sqrt (1 - a)) in
    Math_round (R * c).

  (** The distance between two locations, as every caller computes it. *)
Definition dist (p q : Location) : float :=
    calculateDistance (Location.lat p) (Location.lng p)
                      (Location.lat q) (Location.lng q).

  (** script.js, lines 163-176.  [shippingRates[shippingType]] is an entry
      of the table, a member inherited from [Object.prototype] (whose
      [perKm], [perPound], [baseCost] and [days] are all [undefined], so the
      arithmetic yields NaN), or [undefined] (reading [rates.perKm] then
      throws). *)
Definition calculateShippingCost (originLocation destinationLocation : Location)
      (weight : float) (shippingType : string) : Completion ShippingResult :=
    let distance := dist originLocation destinationLocation in
    match js_get shippingRates shippingType with
    | Own rates =>
        let distanceCost := distance * perKm rates in
        let weightCost := weight * perPound rates in
        let totalCost := baseCost rates + distanceCost + weightCost in
        Normal {| cost := totalCost;
                  distance := distance;
                  deliveryDays := Some (days rates) |}
    | Inherited _ =>
        Normal {| cost := nan; distance := distance; deliveryDays := None |}
    | Undefined => ThrowTypeError
    end.

  (** ** Route optimisation (script.js, lines 217-246) *)

  (** The three variables the inner [for] loop updates. *)
Record Nearest : Type := {
    nearest : Location;
    nearestDistance : float;
    nearestIndex : nat
  }.

  (** The [for] loop of lines 230-237, entered at index [i] with [rest]
      holding [remaining[i], remaining[i+1], ...]. *)
Fixpoint for_loop (current : Location) (rest : list Location) (i : nat)
      (best : Nearest) : Nearest :=
    match rest with
    | [] => best
    | r :: rest' =>
        let distance := dist current r in
        for_loop current rest' (S i)
          (if distance <? nearestDistance best
           then {| nearest := r; nearestDistance := distance; nearestIndex := i |}
           else best)
    end.

  (** Lines 226-237: the nearest of a non-empty [remaining]. *)
Definition find_nearest (current r0 : Location) (rest : list Location) : Nearest :=
    for_loop current rest 1
      {| nearest := r0; nearestDistance := dist current r0; nearestIndex := 0 |}.

  (** The variables of the [while] loop. *)
Record LoopState : Type := {
    st_route : list Location;
    st_remaining : list Location;
    st_current : Location;
    st_totalDistance : float
  }.

  (** One iteration of the [while] loop (lines 226-242); [splice(i, 1)] is
      [delete i]. *)
Definition loop_body (s : LoopState) : LoopState :=
    match st_remaining s with
    | [] => s
    | r0 :: rest =>
        let n := find_nearest (st_current s) r0 rest in
        {| st_route := st_route s ++ [nearest n];
           st_remaining := delete (nearestIndex n) (st_remaining s);
           st_current := nearest n;
           st_totalDistance := st_totalDistance s + nearestDistance n |}
    end.

  (** [while (remaining.length > 0) body], run for at most [fuel]
      iterations. *)
Fixpoint while_loop (fuel : nat) (s : LoopState) : LoopState :=
    match st_remaining s, fuel with
    | [], _ => s
    | _ :: _, O => s
    | _ :: _, S fuel' => while_loop fuel' (loop_body s)
    end.

  (** Each iteration removes one element of [remaining], so
      [length stops] iterations reach the loop's exit (lemma
      [while_loop_exits]). *)
Definition optimizeRoute (start : Location) (stops : list Location) : RouteResult :=
    match stops with
    | [] => {| route := [start]; totalDistance := 0 |}
    | _ :: _ =>
        let s := while_loop (length stops)
                   {| st_route := [start];
                      st_remaining := stops;
                      st_current := start;
                      st_totalDistance := 0 |} in
        {| route := st_route s; totalDistance := st_totalDistance s |}
    end.

  (** ** Geocoding client (script.js, lines 32-76) *)

  (** Lines 36-41: the [if] and its two branches, [postal] being the value
      of [isPostalCode(query)]. *)
Definition searchQuery_branch (postal : bool) (query : string) : string :=
    if postal then query +:+ ", Canada" else query +:+ ", Canada".

Definition searchQuery (query : string) : string :=
    searchQuery_branch (isPostalCode query) query.

  (** Line 43. *)
Definition request_url (query : string) : string :=
    "https://nominatim.openstreetmap.org/search?format=json&q=" +:+
    encodeURIComponent (searchQuery query) +:+
    "&countrycodes=ca&limit=8&addressdetails=1".

  (** Lines 46-67: the callback of [data.map]. *)
Definition to_location (item : Item.t) : Location :=
    let address := default Address.empty (Item.address item) in
    let displayName :=
      if truthy_opt (Address.city address) || truthy_opt (Address.town address)
         || truthy_opt (Address.village address)
      then
        let city := or_else (or_else (Address.city address) (Address.town address))
                            (Address.village address) in
        let province := or_else (Address.state address) (Address.province address) in
        if truthy_opt province
        then to_string city +:+ ", " +:+ to_string province
        else to_string city
      else if truthy_opt (Address.postcode address)
      then to_string (Address.postcode address) +:+ ", " +:+
           to_string (or_else (Address.state address) (Some "Canada"%string))
      else Item.display_name item in
    {| Location.name := displayName;
       Location.fullName := Item.display_name item;
       Location.lat := parseFloat (Item.lat item);
       Location.lng := parseFloat (Item.lon item);
       Location.id := Item.place_id item;
       Location.type := Item.type item;
       Location.postcode := Address.postcode address |}.

  (** Line 68: [item => item.lat && item.lng]. *)
Definition has_coordinates (l : Location) : bool :=
    truthy_number (Location.lat l) && truthy_number (Location.lng l).

  (** [await fetch(url)]: the request is recorded and the network's next
      answer consumed. *)
Definition fetch (url : string) (w : World) : Response * World :=
    let w' := {| World.cityCache := World.cityCache w;
                 World.network := tail (World.network w);
                 World.requests := World.requests w ++ [url] |} in
    (match World.network w with
     | [] => NetworkFailure
     | r :: _ => r
     end, w').

  (** One call of [geocodeCanadianLocation], run to completion.  Line 33
      returns whatever truthy value [cityCache[query]] holds: a cached list
      (an Array is truthy even when empty) or an inherited member.  Any
      exception between lines 35 and 71 ends in the [catch] of lines 72-75. *)
Definition geocodeCanadianLocation (query : string) (w : World) : GeoValue * World :=
    match js_get (World.cityCache w) query with
    | Own cached => (Locations cached, w)
    | Inherited key => (PrototypeMember key, w)
    | Undefined =>
        let '(response, w1) := fetch (request_url query) w in
        match response with
        | JsonArray data =>
            let locations := filter (fun l => has_coordinates l = true)
                                    (map to_location data) in
            (Locations locations,
             {| World.cityCache := <[query := locations]> (World.cityCache w1);
                World.network := World.network w1;
                World.requests := World.requests w1 |})
        | NetworkFailure | ParseFailure => (Locations [], w1)
        end
    end.

  (** A sequence of calls, each awaited before the next; the world after
      the last. *)
Definition geocode_all (queries : list string) (w : World) : World :=
    fold_left (fun w q => snd (geocodeCanadianLocation q w)) queries w.

  (** ** Shipping form (script.js, lines 297-323)

      The submit handler, given [selectedCities] and the values of the
      [weight] and [shippingType] fields. *)
Definition shippingForm_submit (selectedCities : SelectedCities.t)
      (weightValue shippingTypeValue : string) : list Event :=
    let weight := parseFloat weightValue in
    let shippingType := shippingTypeValue in
    match SelectedCities.origin selectedCities,
          SelectedCities.destination selectedCities with
    | Some origin, Some destination =>
        if negb (truthy_number weight) || negb (truthy_string shippingType)
        then [Alert "Please select valid Canadian locations and fill in all fields"]
        else if (Location.id origin =? Location.id destination)%Z
        then [Alert "Origin and destination cannot be the same"]
        else
          match calculateShippingCost origin destination weight shippingType with
          | ThrowTypeError => [UncaughtTypeError]
          | Normal result =>
              SetShippingCost (cost result) ::
              match deliveryDays result with
              | None => [UncaughtTypeError]
              | Some (d0, d1) =>
                  [ SetDeliveryTime
                      (if d0 =? d1 then SingleDay d0 (1 <? d0) else DayRange d0 d1);
                    SetDistance (distance result);
                    ShowShippingResults ]
              end
          end
    | _, _ => [Alert "Please select valid Canadian locations and fill in all fields"]
    end.

End Program.

(* ===================================================================== *)
(** * The program, continued: stops, selections, the route form, debounce *)
(* ===================================================================== *)

Section Page.
Context {RT : Runtime}.
Local Open Scope float_scope.

Definition with_stops (selectedCities : SelectedCities.t)
    (stops : list Location) : SelectedCities.t :=
  {| SelectedCities.origin := SelectedCities.origin selectedCities;
     SelectedCities.destination := SelectedCities.destination selectedCities;
     SelectedCities.start := SelectedCities.start selectedCities;
     SelectedCities.stops := stops |}.

(** The assignments of lines 120-122, 141-143 and 286-288:
    [selectedCities.origin = v] for the input [origin], and so on; another
    input id changes nothing. *)
Definition with_selection (inputId : string) (v : option Location)
    (selectedCities : SelectedCities.t) : SelectedCities.t :=
  if String.eqb inputId "origin" then
    {| SelectedCities.origin := v;
       SelectedCities.destination := SelectedCities.destination selectedCities;
       SelectedCities.start := SelectedCities.start selectedCities;
       SelectedCities.stops := SelectedCities.stops selectedCities |}
  else if String.eqb inputId "destination" then
    {| SelectedCities.origin := SelectedCities.origin selectedCities;
       SelectedCities.destination := v;
       SelectedCities.start := SelectedCities.start selectedCities;
       SelectedCities.stops := SelectedCities.stops selectedCities |}
  else if String.eqb inputId "startLocation" then
    {| SelectedCities.origin := SelectedCities.origin selectedCities;
       SelectedCities.destination := SelectedCities.destination selectedCities;
       SelectedCities.start := v;
       SelectedCities.stops := SelectedCities.stops selectedCities |}
  else selectedCities.

(** script.js, lines 196-214: one entry per stop, in order. *)
Definition updateStopsList (stops : list Location) : list StopItem :=
  map (fun stop => {| item_name := Location.name stop;
                      item_id := Location.id stop |}) stops.

(** The callback of [find] in line 180 and, negated, that of [filter] in
    line 190. *)
Definition same_id (locationId : Z) (stop : Location) : bool :=
  String.eqb (toString (Location.id stop)) (toString locationId).

(** script.js, lines 179-184.  [find] returns a stop (an object, truthy)
    or [undefined]. *)
Definition addStop (location : Location) (selectedCities : SelectedCities.t)
    : SelectedCities.t * list DomEvent :=
  if existsb (same_id (Location.id location)) (SelectedCities.stops selectedCities)
  then (selectedCities, [])
  else
    let stops := SelectedCities.stops selectedCities ++ [location] in
    (with_stops selectedCities stops, [RenderStops (updateStopsList stops)]).

(** script.js, lines 187-193. *)
Definition removeStop (locationId : Z) (selectedCities : SelectedCities.t)
    : SelectedCities.t * list DomEvent :=
  let stops := List.filter (fun stop => negb (same_id locationId stop))
                 (SelectedCities.stops selectedCities) in
  (with_stops selectedCities stops, [RenderStops (updateStopsList stops)]).

(** script.js, lines 115-123: [selectCity] as declared, in force until
    [DOMContentLoaded]. *)
Definition selectCity_declared (inputId suggestionsId : string)
    (location : Location) (selectedCities : SelectedCities.t)
    : SelectedCities.t * list DomEvent :=
  (with_selection inputId (Some location) selectedCities,
   [SetValue inputId (Location.name location); Hide suggestionsId]).

(** script.js, lines 280-291: [window.selectCity], which replaces it. *)
Definition selectCity (inputId suggestionsId : string)
    (location : Location) (selectedCities : SelectedCities.t)
    : SelectedCities.t * list DomEvent :=
  if String.eqb inputId "stopInput" then
    let '(selectedCities', events) := addStop location selectedCities in
    (selectedCities', events ++ [SetValue inputId ""; Hide suggestionsId])
  else
    (with_selection inputId (Some location) selectedCities,
     [SetValue inputId (Location.name location); Hide suggestionsId]).

(** script.js, lines 138-146: the [input] listener of a location field,
    up to the call of the debounced search. *)
Definition on_input (inputId : string) (selectedCities : SelectedCities.t)
    : SelectedCities.t :=
  with_selection inputId None selectedCities.

(** script.js, lines 360-369: the loop over the legs of the route, with
    [totalCost] and [totalTime] as it goes. *)
Fixpoint cost_loop (route : list Location) (totalCost totalTime : float)
    : Completion (float * float) :=
  match route with
  | p :: (q :: _) as rest =>
      match calculateShippingCost p q 50 "standard" with
      | Normal segmentCost =>
          match deliveryDays segmentCost with
          | Some (_, d1) =>
              cost_loop rest (totalCost + cost segmentCost) (Math_max totalTime d1)
          | None => ThrowTypeError
          end
      | ThrowTypeError => ThrowTypeError
      end
  | _ => Normal (totalCost, totalTime)
  end.

(** The callback of [forEach] in lines 345-353: step number and name. *)
Fixpoint route_steps (index : nat) (route : list Location) : list (nat * string) :=
  match route with
  | [] => []
  | location :: rest => (index + 1, Location.name location)%nat :: route_steps (S index) rest
  end.

(** script.js, lines 326-376. *)
Definition routeForm_submit (selectedCities : SelectedCities.t) : list RouteEvent :=
  match SelectedCities.start selectedCities with
  | None => [RouteAlert "Please select a valid Canadian start location"]
  | Some start =>
      match SelectedCities.stops selectedCities with
      | [] => [RouteAlert "Please add at least one stop"]
      | stops =>
          let optimization := optimizeRoute start stops in
          RenderRoute (route_steps 0 (route optimization)) ::
          match cost_loop (route optimization) 0 0 with
          | ThrowTypeError => [RouteTypeError]
          | Normal (totalCost, totalTime) =>
              [ SetTotalDistance (totalDistance optimization);
                SetTotalCost totalCost;
                SetTotalTime totalTime;
                ShowRouteResults ]
          end
      end
  end.

End Page.

(** ** [debounce] (script.js, lines 14-24)

    The function [debounce(func, wait)] returns, with the one timer it
    owns.  A call cancels the timer and sets a new one, due [wait]
    milliseconds later; the browser runs a timer at some moment at or after
    the time it is due; the timer's callback calls [func] with the
    arguments of the call that set it. *)
Module Debounce.
Section Debounce.
Context {A : Type} (wait : Z).

(** What happened, oldest first: a call of the returned function, or a
    call of [func], each with the time and the arguments. *)
Inductive entry : Type :=
| Called (time : Z) (args : A)
| Invoked (time : Z) (args : A).

(** The clock, the variable [timeout] as far as it names a timer still
    pending (the time it is due, and the arguments its callback holds),
    and the log. *)
Record state : Type := {
  now : Z;
  timeout : option (Z * A);
  log : list entry
}.

Definition init : state := {| now := 0; timeout := None; log := [] |}.

Inductive event : Type :=
| Call (args : A)
| Elapse (ms : Z)
| RunTimers.

(** [executedFunction(...args)], lines 16-23. *)
Definition executedFunction (args : A) (s : state) : state :=
  {| now := now s;
     timeout := Some (now s + timer_delay wait, args)%Z;
     log := log s ++ [Called (now s) args] |}.

(** [later], lines 17-20, run by the browser when the timer is due. *)
Definition run_timers (s : state) : state :=
  match timeout s with
  | Some (due, args) =>
      if (due <=? now s)%Z
      then {| now := now s; timeout := None;
              log := log s ++ [Invoked (now s) args] |}
      else s
  | None => s
  end.

Definition step (s : state) (e : event) : state :=
  match e with
  | Call args => executedFunction args s
  | Elapse ms => {| now := now s + Z.max 0 ms; timeout := timeout s; log := log s |}
  | RunTimers => run_timers s
  end.

Definition run (events : list event) : state := fold_left step events init.

End Debounce.
End Debounce.

(* ===================================================================== *)
(** * A reference runtime

    One admissible choice of the engine-defined builtins, used to evaluate
    the program on concrete inputs.  The trigonometric functions are
    truncated power series, accurate on [[-pi, pi]], which covers every
    argument [calculateDistance] forms from valid coordinates. *)
(* ===================================================================== *)

Module Ref.
  Local Open Scope float_scope.

  (** [1 - z/(k(k+1)) (1 - z/((k+2)(k+3)) (1 - ...))], [n] factors deep. *)
Fixpoint nested (z k : float) (n : nat) : float :=
    match n with
    | O => 1
    | S n' => 1 - z / (k * (k + 1)) * nested z (k + 2) n'
    end.

Definition sin (x : float) : float := x * nested (x * x) 2 14.

  (** The series is cut to [[-1, 1]]; far outside [[-pi, pi]] it carries no
      information and the result is 1. *)
Definition cos (x : float) : float :=
    let c := nested (x * x) 1 14 in
    if (-1 <=? c) && (c <=? 1) then c
    else if is_finite x then 1 else nan.

  (** [1/k - z (1/(k+2) - z (1/(k+4) - ...))] *)
Fixpoint alternating (z k : float) (n : nat) : float :=
    match n with
    | O => 1 / k
    | S n' => 1 / k - z * alternating z (k + 2) n'
    end.

Definition atan_small (t : float) : float := t * alternating (t * t) 1 20.

  (** For [0 <= t <= 1], by the half-angle formula. *)
Definition atan_unit (t : float) : float :=
    2 * atan_small (t / (1 + Math_sqrt (1 + t * t))).

  (** For [0 <= t <= +infinity]. *)
Definition atan_pos (t : float) : float :=
    if 1 <? t then Math_PI / 2 - atan_unit (1 / t) else atan_unit t.

Definition atan2 (y x : float) : float :=
    if is_nan y || is_nan x then nan
    else
      let ay := abs y in
      let ax := abs x in
      let a := if is_infinity ay && is_infinity ax then Math_PI / 4
               else if PrimFloat.is_zero ay && PrimFloat.is_zero ax then 0
               else atan_pos (ay / ax) in
      let r := if get_sign x then Math_PI - a else a in
      if get_sign y then - r else r.

  (** ** [parseFloat] (ECMA-262, 19.2.4) *)

Definition is_digit (c : ascii) : bool := RegExp.digit c.
Definition digit_value (c : ascii) : Z := Z.of_N (N_of_ascii c) - 48.

  (** The longest prefix of decimal digits: its value read after [acc], how
      many digits it has, and what follows it. *)
Fixpoint read_digits (s : string) (acc : Z) (n : nat) : Z * nat * string :=
    match s with
    | String c s' =>
        if is_digit c then read_digits s' (10 * acc + digit_value c)%Z (S n)
        else (acc, n, s)
    | EmptyString => (acc, n, s)
    end.

  (** ExponentPart: [e] or [E], an optional sign and at least one digit;
      0 when the input does not continue with one. *)
Definition read_exponent (s : string) : Z :=
    match s with
    | String c s' =>
        if (Ascii.eqb c "e" || Ascii.eqb c "E")%char then
          let '(neg, s'') :=
            match s' with
            | String "-"%char t => (true, t)
            | String "+"%char t => (false, t)
            | _ => (false, s')
            end in
          let '(e, n, _) := read_digits s'' 0%Z O in
          match n with
          | O => 0%Z
          | S _ => if neg then (- e)%Z else e
          end
        else 0%Z
    | EmptyString => 0%Z
    end.

  (** The Number nearest to [m * 10^e10], ties to even, with sign [neg]. *)
Definition decimal_to_float (neg : bool) (m : Z) (e10 : Z) : float :=
    match m with
    | Zpos p =>
        if (0 <=? e10)%Z then
          SF2Prim (binary_round prec emax neg (p * Z.to_pos (10 ^ e10))%positive 0)
        else
          let '(q, e, l) :=
            SFdiv_core_binary prec emax (Zpos p) 0 (10 ^ (- e10))%Z 0 in
          SF2Prim (binary_round_aux prec emax neg q e l)
    | _ => if neg then -0 else 0
    end.

Fixpoint skip_white_space (s : string) : string :=
    match s with
    | String c s' => if RegExp.white_space c then skip_white_space s' else s
    | EmptyString => s
    end.

Definition parse_unsigned (neg : bool) (s : string) : float :=
    if String.prefix "Infinity" s then (if neg then neg_infinity else infinity)
    else
      let '(i, ni, s1) := read_digits s 0%Z O in
      let '(m, nf, s2) :=
        match s1 with
        | String "."%char t => read_digits t i O
        | _ => (i, O, s1)
        end in
      match ni, nf with
      | O, O => nan
      | _, _ => decimal_to_float neg m (read_exponent s2 - Z.of_nat nf)
      end.

Definition parseFloat (s : string) : float :=
    match skip_white_space s with
    | String "-"%char t => parse_unsigned true t
    | String "+"%char t => parse_unsigned false t
    | t => parse_unsigned false t
    end.

  (** ** [encodeURIComponent] (ECMA-262, 19.2.6.5) on code units below 256 *)

Definition hex_digit (n : N) : ascii :=
    ascii_of_N (if (n <? 10)%N then 48 + n else 55 + n).

Definition percent (byte : N) : string :=
    String "%" (String (hex_digit (byte / 16)) (String (hex_digit (byte mod 16)) "")).

Definition unreserved (c : ascii) : bool :=
    RegExp.letter c || RegExp.digit c ||
    existsb (Ascii.eqb c) ["-"; "_"; "."; "!"; "~"; "*"; "'"; "("; ")"]%char.

Definition encode_unit (c : ascii) : string :=
    let n := N_of_ascii c in
    if unreserved c then String c ""
    else if (n <? 128)%N then percent n
    else percent (192 + n / 64) +:+ percent (128 + n mod 64).

Fixpoint encodeURIComponent (s : string) : string :=
    match s with
    | EmptyString => EmptyString
    | String c s' => encode_unit c +:+ encodeURIComponent s'
    end.

End Ref.

Definition RefRuntime : Runtime :=
  {| Math_sin := Ref.sin;
     Math_cos := Ref.cos;
     Math_atan2 := Ref.atan2;
     parseFloat := Ref.parseFloat;
     encodeURIComponent := Ref.encodeURIComponent |}.


(* ===================================================================== *)
(** * Notions the properties are stated with *)
(* ===================================================================== *)

(** ** The order of Numbers

    A Number that is not NaN has a key in [Z * Z * Z]; [<] and [<=] on
    Numbers are the lexicographic order of the keys (lemma
    [SFcompare_key]). *)
Definition SFkey (x : spec_float) : option (Z * Z * Z) :=
  match x with
  | S754_nan => None
  | S754_infinity s => Some (if s then (-2) else 2, 0, 0)%Z
  | S754_zero _ => Some (0, 0, 0)%Z
  | S754_finite s m e =>
      Some (if s then (-1, - e, Zneg m) else (1, e, Zpos m))%Z
  end.

Definition lex_compare (a b : Z * Z * Z) : comparison :=
  match (a.1.1 ?= b.1.1)%Z with
  | Eq => match (a.1.2 ?= b.1.2)%Z with
          | Eq => (a.2 ?= b.2)%Z
          | c => c
          end
  | c => c
  end.

(** The two comparisons on keys, as arithmetic. *)
Definition key_lt (a b : Z * Z * Z) : Prop :=
  (a.1.1 < b.1.1 ∨ a.1.1 = b.1.1 ∧ (a.1.2 < b.1.2 ∨ a.1.2 = b.1.2 ∧ a.2 < b.2))%Z.

Definition key_le (a b : Z * Z * Z) : Prop :=
  (a.1.1 < b.1.1 ∨ a.1.1 = b.1.1 ∧ (a.1.2 < b.1.2 ∨ a.1.2 = b.1.2 ∧ a.2 <= b.2))%Z.

Definition fkey (x : float) : option (Z * Z * Z) := SFkey (Prim2SF x).

(** A Number that is neither NaN nor infinite. *)
Definition SFfinite (x : spec_float) : bool :=
  match x with
  | S754_zero _ | S754_finite _ _ _ => true
  | _ => false
  end.

(** A Number that is zero, or finite with binary exponent at most [E]. *)
Definition SFbounded (E : Z) (x : spec_float) : Prop :=
  match x with
  | S754_zero _ => True
  | S754_finite _ _ e => (e ≤ E)%Z
  | _ => False
  end.

(** ** What the distance properties ask of the engine

    [Math.sin(+0)] is [+0] and [Math.atan2(+0, x)] is [+0] for [x > 0]
    (ECMA-262, 21.3.2.30 and 21.3.2.8).  That [Math.sin] is odd and that
    [Math.cos] of a finite Number lies in [[-1, 1]] is true of the
    implementations in use, and not required by ECMA-262. *)
Record trig_laws (RT : Runtime) : Prop := {
  sin_zero : Math_sin 0 = 0%float;
  sin_odd : ∀ x, Math_sin (- x) = (- Math_sin x)%float;
  cos_range : ∀ x, is_finite x = true →
                   (-1 <=? Math_cos x)%float && (Math_cos x <=? 1)%float = true;
  atan2_zero : Math_atan2 0 1 = 0%float
}.

(** Valid coordinates of a GeoPoint. *)
Definition valid_lat (x : float) : bool := ((-90 <=? x) && (x <=? 90))%float.
Definition valid_lng (x : float) : bool := ((-180 <=? x) && (x <=? 180))%float.

(** ** Routes *)

Section Notions.
  Context {RT : Runtime}.
  Local Open Scope float_scope.

  (** [sin(d/2) * sin(d/2)] for an angle difference [d]. *)
Definition haversine_term (d : float) : float :=
  Math_sin (d / 2) * Math_sin (d / 2).

  (** The consecutive pairs of a route. *)
Fixpoint legs (r : list Location) : list (Location * Location) :=
    match r with
    | p :: (q :: _) as r' => (p, q) :: legs r'
    | _ => []
    end.

  (** The rounded distances of the legs, added up in route order. *)
Definition sum_of_legs (r : list Location) : float :=
    fold_left (fun acc leg => acc + dist leg.1 leg.2) (legs r) 0.

  (** [s], at index [k] of [remaining], is the stop to visit next from
      [current]: no remaining stop is nearer, and no stop before it in the
      list is as near. *)
Definition nearest_first (current : Location) (remaining : list Location)
      (k : nat) (s : Location) : Prop :=
    remaining !! k = Some s ∧
    (∀ j r, remaining !! j = Some r → (dist current r <? dist current s) = false) ∧
    (∀ j r, (j < k)%nat → remaining !! j = Some r →
            (dist current r <=? dist current s) = false).

  (** The same with the comparisons turned round, which says more when the
      distances are Numbers other than NaN: [s] is at the minimum distance,
      and every stop before it is strictly farther. *)
Definition nearest_min (current : Location) (remaining : list Location)
      (k : nat) (s : Location) : Prop :=
    remaining !! k = Some s ∧
    (∀ j r, remaining !! j = Some r → (dist current s <=? dist current r) = true) ∧
    (∀ j r, (j < k)%nat → remaining !! j = Some r →
            (dist current s <? dist current r) = true).

  (** The order in which a selection rule visits [remaining], starting from
      [current]: the selected stop is visited and taken out of the list,
      and the rule is applied again from there. *)
Inductive greedy_order
      (select : Location -> list Location -> nat -> Location -> Prop) :
      Location -> list Location -> list Location -> Prop :=
  | greedy_done current :
      greedy_order select current [] []
  | greedy_next current remaining k s order :
      select current remaining k s ->
      greedy_order select s (delete k remaining) order ->
      greedy_order select current remaining (s :: order).

  (** The distance travelled from [current] along [order], added to [acc]
      leg by leg. *)
Fixpoint path_sum (acc : float) (current : Location) (order : list Location) : float :=
    match order with
    | [] => acc
    | s :: order' => path_sum (acc + dist current s) s order'
    end.

  (** No distance between two of the locations [ls] is NaN. *)
Definition distances_are_numbers (ls : list Location) : Prop :=
    ∀ p q, p ∈ ls → q ∈ ls → is_nan (dist p q) = false.

End Notions.

(** The shape [postalCodeRegex] describes: letter, digit, letter, an
    optional space or hyphen, digit, letter, digit. *)
Definition postal_shape (s : string) : Prop :=
  ∃ c1 c2 c3 c4 c5 c6 : ascii,
    RegExp.letter c1 = true ∧ RegExp.digit c2 = true ∧ RegExp.letter c3 = true ∧
    RegExp.digit c4 = true ∧ RegExp.letter c5 = true ∧ RegExp.digit c6 = true ∧
    (s = String c1 (String c2 (String c3 (String c4 (String c5 (String c6 "")))))
     ∨ ∃ sep, RegExp.space_or_hyphen sep = true ∧
         s = String c1 (String c2 (String c3 (String sep
               (String c4 (String c5 (String c6 ""))))))).

(** ** The shipping form and the geocoding client *)

Section FormNotions.
Context {RT : Runtime}.

(** The first [if] of the submit handler (script.js, line 303) takes its
    branch: a selection is missing, or the weight or the tier is falsy. *)
Definition fields_missing (selectedCities : SelectedCities.t)
    (weightValue shippingTypeValue : string) : Prop :=
  SelectedCities.origin selectedCities = None ∨
  SelectedCities.destination selectedCities = None ∨
  truthy_number (parseFloat weightValue) = false ∨
  shippingTypeValue = ""%string.

(** What the handler renders from a table entry [rates]. *)
Definition rendered (origin destination : Location) (weight : float)
    (rates : Rates) : list Event :=
  [ SetShippingCost (baseCost rates + dist origin destination * perKm rates +
                     weight * perPound rates)%float;
    SetDeliveryTime (if ((days rates).1 =? (days rates).2)%float
                     then SingleDay (days rates).1 (1 <? (days rates).1)%float
                     else DayRange (days rates).1 (days rates).2);
    SetDistance (dist origin destination);
    ShowShippingResults ].

(** A call of [geocodeCanadianLocation] that goes to the network and gets
    no list back. *)
Definition call_fails (query : string) (w : World) : bool :=
  match js_get (World.cityCache w) query, World.network w with
  | Undefined, JsonArray _ :: _ => false
  | Undefined, _ => true
  | _, _ => false
  end.

(** What a call returns when line 33 finds the query in [cityCache]. *)
Definition cached_value (p : Property (list Location)) : option GeoValue :=
  match p with
  | Own l => Some (Locations l)
  | Inherited key => Some (PrototypeMember key)
  | Undefined => None
  end.

End FormNotions.

(** ** Notions for the rest of the page *)

(** The ids of a list of stops, in order. *)
Definition stop_ids (stops : list Location) : list Z := map Location.id stops.

(** Every list in the cache holds locations with truthy coordinates. *)
Definition cache_has_coordinates {RT : Runtime} (w : World) : Prop :=
  ∀ query l, World.cityCache w !! query = Some l →
             Forall (fun x => has_coordinates x = true) l.

(** The events of a burst: each call is followed by less than the delay
    and by the browser looking at the timers. *)
Definition burst {A} (wait : Z) (calls : list (A * Z)) : list (Debounce.event (A:=A)) :=
  flat_map (fun c => [Debounce.Call c.1; Debounce.Elapse c.2; Debounce.RunTimers]) calls.

(** The entries of a log that are calls of [func]. *)
Definition invocations {A} (l : list (Debounce.entry (A:=A))) : list (Z * A) :=
  flat_map (fun e => match e with
                     | Debounce.Invoked t a => [(t, a)]
                     | Debounce.Called _ _ => []
                     end) l.

(** The sum, from [acc], of the standard-tier prices of the legs of a
    route for 50 pounds each. *)
Definition legs_cost {RT : Runtime} (route : list Location) (acc : float) : float :=
  fold_left (fun a leg => a + (18 + dist leg.1 leg.2 * 0.65 + 50 * 0.15))%float
            (legs route) acc.

(** What holds of a debounced function at all times: a pending timer was
    set by the last entry of the log, a call, and is due [wait] after it;
    and each call of [func] in the log comes directly after the call whose
    arguments it carries, at least [wait] later. *)
Definition paired {A} (wait : Z) (s : Debounce.state (A:=A)) : Prop :=
  (∀ due a, Debounce.timeout s = Some (due, a) →
     ∃ t0, last (Debounce.log s) = Some (Debounce.Called t0 a) ∧
           due = (t0 + timer_delay wait)%Z) ∧
  (∀ i t a, Debounce.log s !! i = Some (Debounce.Invoked t a) →
     ∃ j t0, i = S j ∧ Debounce.log s !! j = Some (Debounce.Called t0 a) ∧
             (t0 + timer_delay wait ≤ t)%Z).

(** ** Example data *)

Definition toronto : Location :=
  {| Location.name := "Toronto, Ontario"; Location.fullName := "Toronto, Ontario, Canada";
     Location.lat := 43.65; Location.lng := -79.38; Location.id := 1;
     Location.type := "city"; Location.postcode := None |}.

Definition montreal : Location :=
  {| Location.name := "Montreal, Quebec"; Location.fullName := "Montreal, Quebec, Canada";
     Location.lat := 45.50; Location.lng := -73.57; Location.id := 2;
     Location.type := "city"; Location.postcode := None |}.

Definition ottawa : Location :=
  {| Location.name := "Ottawa, Ontario"; Location.fullName := "Ottawa, Ontario, Canada";
     Location.lat := 45.42; Location.lng := -75.70; Location.id := 3;
     Location.type := "city"; Location.postcode := None |}.

Definition kingston : Location :=
  {| Location.name := "Kingston, Ontario"; Location.fullName := "Kingston, Ontario, Canada";
     Location.lat := 44.23; Location.lng := -76.49; Location.id := 4;
     Location.type := "city"; Location.postcode := None |}.

Definition three_stops : SelectedCities.t :=
  {| SelectedCities.origin := None;
     SelectedCities.destination := None;
     SelectedCities.start := Some toronto;
     SelectedCities.stops := [montreal; ottawa; kingston] |}.

Definition origin_and_destination : SelectedCities.t :=
  {| SelectedCities.origin := Some toronto;
     SelectedCities.destination := Some montreal;
     SelectedCities.start := None;
     SelectedCities.stops := [] |}.

(** A page whose next request is answered with one place. *)
Definition online : World :=
  {| World.cityCache := ∅;
     World.network :=
       [JsonArray
          [ {| Item.address :=
                 Some (Address.mk (Some "Ottawa") None None (Some "Ontario")
                         None None);
               Item.display_name := "Ottawa, Ontario, Canada";
               Item.lat := "45.4208777";
               Item.lon := "-75.6901106";
               Item.place_id := 3;
               Item.type := "city" |} ]];
     World.requests := [] |}.

(** A page whose next request is rejected and whose second is answered
    with an empty list. *)
Definition offline_then_online : World :=
  {| World.cityCache := ∅;
     World.network := [NetworkFailure; JsonArray []];
     World.requests := [] |}.

(* ===================================================================== *)
(** * Facts about Numbers *)
(* ===================================================================== *)

Lemma SFcompare_key x y :
  SFcompare x y =
  match SFkey x, SFkey y with
  | Some a, Some b => Some (lex_compare a b)
  | _, _ => None
  end.
Proof.
  destruct x as [sx|sx| |sx mx ex], y as [sy|sy| |sy my ey];
    try destruct sx; try destruct sy; try reflexivity.
  cbn. rewrite Z.compare_opp, (Z.compare_antisym ex ey).
  destruct (ex ?= ey)%Z; reflexivity.
Qed.

Lemma lex_compare_Lt a b : lex_compare a b = Lt ↔ key_lt a b.
Proof.
  unfold lex_compare, key_lt.
  destruct (Z.compare_spec a.1.1 b.1.1), (Z.compare_spec a.1.2 b.1.2),
    (Z.compare_spec a.2 b.2); split; intros; try discriminate; try lia; reflexivity.
Qed.

Lemma lex_compare_Le a b : lex_compare a b ≠ Gt ↔ key_le a b.
Proof.
  unfold lex_compare, key_le.
  destruct (Z.compare_spec a.1.1 b.1.1), (Z.compare_spec a.1.2 b.1.2),
    (Z.compare_spec a.2 b.2); split; intros; try congruence; try lia.
Qed.

Lemma ltb_key x y :
  (x <? y)%float = true ↔ ∃ a b, fkey x = Some a ∧ fkey y = Some b ∧ key_lt a b.
Proof.
  rewrite FloatAxioms.ltb_spec. unfold SFltb, fkey. rewrite SFcompare_key.
  destruct (SFkey (Prim2SF x)) as [a|], (SFkey (Prim2SF y)) as [b|];
    try (split; [discriminate | intros (?&?&?&?&?); discriminate]).
  destruct (lex_compare a b) eqn:E.
  - split; [discriminate|]. intros (a'&b'&[= <-]&[= <-]&H).
    apply lex_compare_Lt in H. congruence.
  - split; [|reflexivity]. intros _. exists a, b.
    rewrite <- lex_compare_Lt. auto.
  - split; [discriminate|]. intros (a'&b'&[= <-]&[= <-]&H).
    apply lex_compare_Lt in H. congruence.
Qed.

Lemma leb_key x y :
  (x <=? y)%float = true ↔ ∃ a b, fkey x = Some a ∧ fkey y = Some b ∧ key_le a b.
Proof.
  rewrite FloatAxioms.leb_spec. unfold SFleb, fkey. rewrite SFcompare_key.
  destruct (SFkey (Prim2SF x)) as [a|], (SFkey (Prim2SF y)) as [b|];
    try (split; [discriminate | intros (?&?&?&?&?); discriminate]).
  destruct (lex_compare a b) eqn:E.
  - split; [|reflexivity]. intros _. exists a, b.
    rewrite <- lex_compare_Le. split; [|split]; congruence.
  - split; [|reflexivity]. intros _. exists a, b.
    rewrite <- lex_compare_Le. split; [|split]; congruence.
  - split; [discriminate|]. intros (a'&b'&[= <-]&[= <-]&H).
    apply lex_compare_Le in H. congruence.
Qed.

Lemma is_nan_key x : is_nan x = false ↔ ∃ a, fkey x = Some a.
Proof.
  unfold is_nan. rewrite FloatAxioms.eqb_spec. unfold SFeqb, fkey.
  rewrite SFcompare_key. destruct (SFkey (Prim2SF x)) as [a|].
  - assert (lex_compare a a = Eq) as ->.
    { unfold lex_compare. by rewrite !Z.compare_refl. }
    split; eauto.
  - split; [discriminate | intros [? ?]; discriminate].
Qed.

(** [x < x] is false. *)
Lemma ltb_irrefl x : (x <? x)%float = false.
Proof.
  apply not_true_is_false. rewrite ltb_key.
  intros (a & b & Ha & Hb & H). rewrite Ha in Hb. injection Hb as <-.
  unfold key_lt in H. lia.
Qed.

(** [x < y] excludes [y < x] and [y <= x]. *)
Lemma ltb_asym x y : (x <? y)%float = true → (y <? x)%float = false.
Proof.
  rewrite ltb_key. intros (a & b & Ha & Hb & H).
  apply not_true_is_false. rewrite ltb_key.
  intros (b' & a' & Hb' & Ha' & H'). simplify_eq.
  unfold key_lt in *. lia.
Qed.

Lemma ltb_not_leb x y : (x <? y)%float = true → (y <=? x)%float = false.
Proof.
  rewrite ltb_key. intros (a & b & Ha & Hb & H).
  apply not_true_is_false. rewrite leb_key.
  intros (b' & a' & Hb' & Ha' & H'). simplify_eq.
  unfold key_lt, key_le in *. lia.
Qed.

Lemma ltb_trans x y z :
  (x <? y)%float = true → (y <? z)%float = true → (x <? z)%float = true.
Proof.
  rewrite !ltb_key. intros (a & b & Ha & Hb & H) (b' & c & Hb' & Hc & H').
  simplify_eq. exists a, c. unfold key_lt in *. repeat split; auto; lia.
Qed.

Lemma leb_ltb_trans x y z :
  (x <=? y)%float = true → (y <? z)%float = true → (x <? z)%float = true.
Proof.
  rewrite leb_key, !ltb_key. intros (a & b & Ha & Hb & H) (b' & c & Hb' & Hc & H').
  simplify_eq. exists a, c. unfold key_lt, key_le in *. repeat split; auto; lia.
Qed.

(** On Numbers that are not NaN the order is total. *)
Lemma ltb_false_leb x y :
  is_nan x = false → is_nan y = false →
  (x <? y)%float = false → (y <=? x)%float = true.
Proof.
  rewrite !is_nan_key. intros [a Ha] [b Hb] H.
  rewrite leb_key. exists b, a. repeat split; auto.
  assert (¬ key_lt a b) as N.
  { intros K. rewrite (proj2 (ltb_key x y)) in H; [discriminate|]. eauto. }
  unfold key_lt, key_le in *. lia.
Qed.

Lemma leb_false_ltb x y :
  is_nan x = false → is_nan y = false →
  (x <=? y)%float = false → (y <? x)%float = true.
Proof.
  rewrite !is_nan_key. intros [a Ha] [b Hb] H.
  rewrite ltb_key. exists b, a. repeat split; auto.
  assert (¬ key_le a b) as N.
  { intros K. rewrite (proj2 (leb_key x y)) in H; [discriminate|]. eauto. }
  unfold key_lt, key_le in *. lia.
Qed.

(** ** Negation, and the size of products and quotients *)

Lemma SFopp_involutive x : SFopp (SFopp x) = x.
Proof. destruct x as [[]|[]| |[] m e]; reflexivity. Qed.

Lemma binary_round_aux_opp s m e l :
  binary_round_aux prec emax (negb s) m e l =
  SFopp (binary_round_aux prec emax s m e l).
Proof.
  unfold binary_round_aux.
  destruct (shr_fexp prec emax m e l) as [mrs' e'].
  destruct (shr_fexp prec emax _ e' loc_Exact) as [mrs'' e''].
  destruct (shr_m mrs''); [reflexivity| |reflexivity].
  destruct (e'' <=? emax - prec)%Z; reflexivity.
Qed.

Lemma SFmul_opp_l x y : SF64mul (SFopp x) y = SFopp (SF64mul x y).
Proof.
  destruct x as [sx|sx| |sx mx ex], y as [sy|sy| |sy my ey]; cbn;
    rewrite <- ?negb_xorb_l; try reflexivity.
  apply binary_round_aux_opp.
Qed.

Lemma SFmul_comm x y : SF64mul x y = SF64mul y x.
Proof.
  destruct x as [sx|sx| |sx mx ex], y as [sy|sy| |sy my ey]; cbn;
    rewrite 1?xorb_comm; try reflexivity.
  by rewrite Pos.mul_comm, Z.add_comm.
Qed.

Lemma SFdiv_opp_l x y : SF64div (SFopp x) y = SFopp (SF64div x y).
Proof.
  destruct x as [sx|sx| |sx mx ex], y as [sy|sy| |sy my ey]; cbn;
    rewrite <- ?negb_xorb_l; try reflexivity.
  destruct (SFdiv_core_binary prec emax (Z.pos mx) ex (Z.pos my) ey) as [[mz ez] lz].
  apply binary_round_aux_opp.
Qed.

Lemma binary_round_opp s m e :
  binary_round prec emax (negb s) m e = SFopp (binary_round prec emax s m e).
Proof.
  unfold binary_round. destruct (shl_align _ _ _) as [mz ez].
  apply binary_round_aux_opp.
Qed.

Lemma binary_normalize_opp m e :
  m ≠ 0%Z →
  binary_normalize prec emax (- m) e false =
  SFopp (binary_normalize prec emax m e false).
Proof.
  destruct m as [|p|p]; [done|..]; intros _; cbn.
  - apply (binary_round_opp false).
  - rewrite (binary_round_opp false). by rewrite SFopp_involutive.
Qed.

Lemma SFsub_antisym x y :
  SF64sub y x = SFopp (SF64sub x y) ∨
  (SF64sub x y = S754_zero false ∧ SF64sub y x = S754_zero false).
Proof.
  destruct x as [sx|sx| |sx mx ex], y as [sy|sy| |sy my ey];
    try (destruct sx, sy; cbn; auto; fail);
    try (destruct sx; cbn; auto; fail);
    try (destruct sy; cbn; auto; fail); try (cbn; auto; fail).
  unfold SF64sub, SFsub. cbv zeta. rewrite (Z.min_comm ey ex).
  set (ez := Z.min ex ey).
  set (a := cond_Zopp sx (Z.pos (shl_align mx ex ez).1)).
  set (b := cond_Zopp sy (Z.pos (shl_align my ey ez).1)).
  destruct (decide (a - b = 0)%Z) as [E|E].
  - right. replace (b - a)%Z with 0%Z by lia. rewrite E. done.
  - left. replace (b - a)%Z with (- (a - b))%Z by lia.
    by apply binary_normalize_opp.
Qed.

(** The same facts on Numbers. *)
Lemma opp_involutive x : (- - x)%float = x.
Proof. apply Prim2SF_inj. by rewrite !opp_spec, SFopp_involutive. Qed.

Lemma mul_opp_l x y : (- x * y)%float = (- (x * y))%float.
Proof. apply Prim2SF_inj. by rewrite opp_spec, !mul_spec, opp_spec, SFmul_opp_l. Qed.

Lemma mul_comm x y : (x * y)%float = (y * x)%float.
Proof. apply Prim2SF_inj. by rewrite !mul_spec, SFmul_comm. Qed.

Lemma mul_opp_opp x : (- x * - x)%float = (x * x)%float.
Proof.
  by rewrite mul_opp_l, (mul_comm x (- x)), mul_opp_l, opp_involutive.
Qed.

Lemma div_opp_l x y : (- x / y)%float = (- (x / y))%float.
Proof. apply Prim2SF_inj. by rewrite opp_spec, !div_spec, opp_spec, SFdiv_opp_l. Qed.

Lemma sub_antisym x y :
  (y - x)%float = (- (x - y))%float ∨ ((x - y)%float = 0%float ∧ (y - x)%float = 0%float).
Proof.
  destruct (SFsub_antisym (Prim2SF x) (Prim2SF y)) as [H|[H1 H2]].
  - left. apply Prim2SF_inj. by rewrite opp_spec, !sub_spec.
  - right. split; apply Prim2SF_inj; by rewrite sub_spec.
Qed.



Lemma fexp_eq e : fexp prec emax e = Z.max (e - 53) (-1074).
Proof. reflexivity. Qed.

Lemma digits2_pos_lower p : (2 ^ (Z.pos (digits2_pos p) - 1) ≤ Z.pos p)%Z.
Proof.
  induction p as [p IH|p IH|]; cbn [digits2_pos]; [| |done].
  - rewrite Pos2Z.inj_succ.
    replace (Z.succ (Z.pos (digits2_pos p)) - 1)%Z
      with (Z.succ (Z.pos (digits2_pos p) - 1)) by lia.
    rewrite Z.pow_succ_r by lia. lia.
  - rewrite Pos2Z.inj_succ.
    replace (Z.succ (Z.pos (digits2_pos p)) - 1)%Z
      with (Z.succ (Z.pos (digits2_pos p) - 1)) by lia.
    rewrite Z.pow_succ_r by lia. lia.
Qed.

Lemma digits2_pos_upper p : (Z.pos p < 2 ^ Z.pos (digits2_pos p))%Z.
Proof.
  induction p as [p IH|p IH|]; cbn [digits2_pos]; [| |done].
  - rewrite Pos2Z.inj_succ, Z.pow_succ_r by lia. lia.
  - rewrite Pos2Z.inj_succ, Z.pow_succ_r by lia. lia.
Qed.

Lemma Zdigits2_bound m K :
  (0 ≤ K)%Z → (0 ≤ m < 2 ^ K)%Z → (0 ≤ Zdigits2 m ≤ K)%Z.
Proof.
  intros HK [H0 Hm]. destruct m as [|p|p]; cbn; [lia| |lia].
  pose proof (digits2_pos_lower p) as L.
  assert (2 ^ (Z.pos (digits2_pos p) - 1) < 2 ^ K)%Z as Hlt by lia.
  apply Z.pow_lt_mono_r_iff in Hlt; lia.
Qed.

Lemma shr_1_bound r :
  (0 ≤ shr_m r)%Z → (0 ≤ shr_m (shr_1 r) ≤ shr_m r)%Z.
Proof.
  destruct r as [m rr ss]. cbn. destruct m as [|[p|p|]|p]; cbn; lia.
Qed.

Lemma iter_shr_1_bound n r :
  (0 ≤ shr_m r)%Z → (0 ≤ shr_m (@SpecFloat.iter_pos _ shr_1 n r) ≤ shr_m r)%Z.
Proof.
  revert r. induction n as [n IH|n IH|]; intros r H; cbn.
  - pose proof (shr_1_bound r H). pose proof (IH (shr_1 r)).
    pose proof (IH (@SpecFloat.iter_pos _ shr_1 n (shr_1 r))). lia.
  - pose proof (IH r H). pose proof (IH (@SpecFloat.iter_pos _ shr_1 n r)). lia.
  - by apply shr_1_bound.
Qed.

Lemma shr_fexp_bound m e l :
  (0 ≤ m)%Z →
  (0 ≤ shr_m (shr_fexp prec emax m e l).1 ≤ m)%Z ∧
  (shr_fexp prec emax m e l).2 = Z.max e (fexp prec emax (Zdigits2 m + e)).
Proof.
  intros Hm. unfold shr_fexp, shr.
  assert (shr_m (shr_record_of_loc m l) = m) as Hrec.
  { by destruct l as [|[]]. }
  destruct (fexp prec emax (Zdigits2 m + e) - e)%Z as [|p|p] eqn:E; cbn.
  - rewrite Hrec. lia.
  - pose proof (iter_shr_1_bound p (shr_record_of_loc m l)). rewrite Hrec in *. lia.
  - rewrite Hrec. lia.
Qed.

Lemma round_nearest_even_bound m l :
  (m ≤ round_nearest_even m l ≤ m + 1)%Z.
Proof. destruct l as [|[]]; cbn; try lia. destruct (Z.even m); lia. Qed.

Lemma binary_round_aux_bounded s m e l :
  (0 ≤ m < 2 ^ 160)%Z → (e ≤ 700)%Z →
  SFbounded (Z.max (e + 215) (-966)) (binary_round_aux prec emax s m e l).
Proof.
  intros Hm He. unfold binary_round_aux.
  destruct (shr_fexp_bound m e l) as [Hm1 He1]; [lia|].
  destruct (shr_fexp prec emax m e l) as [mrs' e']. cbn [fst snd] in *.
  set (m1 := round_nearest_even (shr_m mrs') (loc_of_shr_record mrs')).
  pose proof (round_nearest_even_bound (shr_m mrs') (loc_of_shr_record mrs')) as Hr.
  fold m1 in Hr.
  destruct (shr_fexp_bound m1 e' loc_Exact) as [Hm2 He2]; [lia|].
  destruct (shr_fexp prec emax m1 e' loc_Exact) as [mrs'' e'']. cbn [fst snd] in *.
  assert (2 ^ 161 = 2 * 2 ^ 160)%Z as P by reflexivity.
  assert (0 ≤ Zdigits2 m ≤ 160)%Z as D1 by (apply Zdigits2_bound; lia).
  assert (0 ≤ Zdigits2 m1 ≤ 161)%Z as D2
    by (apply Zdigits2_bound; [lia | rewrite P; lia]).
  rewrite fexp_eq in He1, He2.
  assert (e'' ≤ Z.max (e + 215) (-966))%Z as Hb by lia.
  destruct (shr_m mrs'') as [|p|p]; cbn; [done| |lia].
  destruct (Z.leb_spec e'' (emax - prec)) as [_|Hgt]; cbn; [done|].
  change (emax - prec)%Z with 971%Z in Hgt. lia.
Qed.

Lemma valid_mantissa s m e :
  valid_binary (S754_finite s m e) = true → (Z.pos m < 2 ^ 53)%Z.
Proof.
  cbn. unfold bounded, canonical_mantissa. rewrite andb_true_iff, Z.eqb_eq, fexp_eq.
  intros [H _]. pose proof (digits2_pos_upper m) as U.
  assert (Z.pos (digits2_pos m) ≤ 53)%Z as D by lia.
  apply (Z.pow_le_mono_r 2) in D; lia.
Qed.

Lemma SFbounded_mono E E' x : (E ≤ E')%Z → SFbounded E x → SFbounded E' x.
Proof. destruct x; cbn; try done. lia. Qed.

Lemma SFbounded_finite E x : SFbounded E x → SFfinite x = true.
Proof. by destruct x. Qed.

Lemma SFmul_bounded x y Ex Ey :
  valid_binary x = true → valid_binary y = true →
  SFbounded Ex x → SFbounded Ey y → (Ex + Ey ≤ 700)%Z →
  SFbounded (Z.max (Ex + Ey + 215) (-966)) (SF64mul x y).
Proof.
  intros Vx Vy Bx By HE.
  destruct x as [sx|sx| |sx mx ex], y as [sy|sy| |sy my ey]; cbn in Bx, By; try done.
  cbn [SF64mul SFmul].
  pose proof (valid_mantissa _ _ _ Vx). pose proof (valid_mantissa _ _ _ Vy).
  eapply SFbounded_mono; [|apply binary_round_aux_bounded]; [lia| |lia].
  rewrite Pos2Z.inj_mul. change (2 ^ 160)%Z with (2 ^ 53 * (2 ^ 53 * 2 ^ 54))%Z.
  nia.
Qed.

Lemma SFdiv_bounded x y Ex Ly :
  valid_binary x = true → valid_binary y = true →
  SFbounded Ex x →
  (∃ sy my ey, y = S754_finite sy my ey ∧ (Ly ≤ ey)%Z) →
  (Ex - Ly ≤ 700)%Z →
  SFbounded (Z.max (Ex - Ly + 215) (-966)) (SF64div x y).
Proof.
  intros Vx Vy Bx (sy & my & ey & -> & Hy) HE.
  destruct x as [sx|sx| |sx mx ex]; cbn in Bx; try done.
  cbn [SF64div SFdiv].
  pose proof (valid_mantissa _ _ _ Vx) as Mx. pose proof (valid_mantissa _ _ _ Vy) as My.
  unfold SFdiv_core_binary. cbv zeta.
  set (d1 := Zdigits2 (Z.pos mx)). set (d2 := Zdigits2 (Z.pos my)).
  assert (0 ≤ d1 ≤ 53 ∧ 0 ≤ d2 ≤ 53)%Z as [D1 D2].
  { split; apply Zdigits2_bound; lia. }
  assert (1 ≤ d1)%Z as D1' by (unfold d1; cbn; lia).
  rewrite fexp_eq.
  set (e' := Z.min (Z.max (d1 + ex - (d2 + ey) - 53) (-1074)) (ex - ey)).
  set (s := (ex - ey - e')%Z).
  assert (0 ≤ s ≤ 105)%Z as Hs by (unfold s, e'; lia).
  set (m' := match s with
             | 0%Z => Z.pos mx
             | Z.pos _ => Z.shiftl (Z.pos mx) s
             | Z.neg _ => 0%Z
             end).
  assert (0 ≤ m' < 2 ^ 160)%Z as Hm'.
  { assert (m' = Z.pos mx * 2 ^ s)%Z as ->.
    { unfold m'. destruct s as [|p|p] eqn:Es; [cbn; lia| |lia].
      rewrite Z.shiftl_mul_pow2 by lia. done. }
    assert (2 ^ s ≤ 2 ^ 105)%Z by (apply Z.pow_le_mono_r; lia).
    assert (0 < 2 ^ s)%Z by (apply Z.pow_pos_nonneg; lia).
    change (2 ^ 160)%Z with (2 ^ 53 * (2 ^ 105 * 4))%Z. nia. }
  pose proof (Z_div_mod m' (Z.pos my) eq_refl) as Hdiv.
  destruct (Z.div_eucl m' (Z.pos my)) as [q r].
  eapply SFbounded_mono; [|apply binary_round_aux_bounded].
  - unfold e'. lia.
  - nia.
  - unfold e'. lia.
Qed.

Lemma is_finite_SF x : is_finite x = SFfinite (Prim2SF x).
Proof.
  unfold is_finite, is_nan, is_infinity.
  rewrite !FloatAxioms.eqb_spec, abs_spec. unfold SFeqb.
  rewrite !SFcompare_key.
  destruct (Prim2SF x) as [s|s| |s m e]; cbn; try reflexivity.
  - by destruct s.
  - unfold lex_compare; cbn. destruct s; cbn; rewrite ?Z.compare_refl, ?Pos.compare_refl; reflexivity.
Qed.

Lemma range_bounded lo hi x mlo mhi E :
  Prim2SF lo = S754_finite true mlo E →
  Prim2SF hi = S754_finite false mhi E →
  (lo <=? x)%float && (x <=? hi)%float = true →
  SFbounded E (Prim2SF x).
Proof.
  intros Hlo Hhi. rewrite andb_true_iff, !leb_key. unfold fkey.
  rewrite Hlo, Hhi.
  intros [(a & b & [= <-] & Hb & L) (b' & c & Hb' & [= <-] & U)].
  rewrite Hb in Hb'. injection Hb' as <-.
  destruct (Prim2SF x) as [s|s| |s m e]; cbn in *; try done; simplify_eq;
    unfold key_le in *; cbn in *; destruct s; cbn in *; lia.
Qed.

Lemma sub_diag x : is_finite x = true → (x - x)%float = 0%float.
Proof.
  rewrite is_finite_SF. intros H. apply Prim2SF_inj. rewrite sub_spec.
  destruct (Prim2SF x) as [s|s| |s m e]; try done.
  - by destruct s.
  - unfold SF64sub, SFsub. cbv zeta. by rewrite Z.sub_diag.
Qed.

Lemma mul_zero_r x :
  is_finite x = true → (x * 0)%float = 0%float ∨ (x * 0)%float = (-0)%float.
Proof.
  rewrite is_finite_SF. intros H.
  assert (Prim2SF (x * 0) = S754_zero false ∨ Prim2SF (x * 0) = S754_zero true) as [E|E].
  { rewrite mul_spec. change (Prim2SF 0) with (S754_zero false).
    destruct (Prim2SF x) as [[]|[]| |[] m e]; cbn; try done; auto. }
  - left. by apply Prim2SF_inj.
  - right. by apply Prim2SF_inj.
Qed.

(* ===================================================================== *)
(** * The route optimiser *)
(* ===================================================================== *)

Section Route.
  Context {RT : Runtime}.
  Local Open Scope float_scope.

  (** The [for] loop keeps [nearest], [nearestDistance] and [nearestIndex]
      in step: [nearest] is [remaining[nearestIndex]] and [nearestDistance]
      its distance from [current]. *)
Lemma for_loop_index current pre rest best :
    (pre ++ rest) !! nearestIndex best = Some (nearest best) →
    nearestDistance best = dist current (nearest best) →
    let n := for_loop current rest (length pre) best in
    (pre ++ rest) !! nearestIndex n = Some (nearest n) ∧
    nearestDistance n = dist current (nearest n).
  Proof.
    revert pre best. induction rest as [|r rest IH]; intros pre best Hi Hd; cbn.
    - auto.
    - specialize (IH (pre ++ [r])). rewrite length_app, Nat.add_1_r in IH.
      rewrite <- app_assoc in IH. cbn in IH. apply IH.
      + destruct (dist current r <? nearestDistance best); cbn; [|done].
        by rewrite list_lookup_middle.
      + destruct (dist current r <? nearestDistance best); cbn; done.
  Qed.

  (** What the [for] loop has established once it has looked at the
      indices below [length pre], and so at its end. *)
Lemma for_loop_min current pre rest best :
    (nearestIndex best < length pre)%nat →
    (∀ j r, (j < length pre)%nat → (pre ++ rest) !! j = Some r →
            (dist current r <? nearestDistance best) = false) →
    (∀ j r, (j < nearestIndex best)%nat → (pre ++ rest) !! j = Some r →
            (dist current r <=? nearestDistance best) = false) →
    let n := for_loop current rest (length pre) best in
    (∀ j r, (pre ++ rest) !! j = Some r →
            (dist current r <? nearestDistance n) = false) ∧
    (∀ j r, (j < nearestIndex n)%nat → (pre ++ rest) !! j = Some r →
            (dist current r <=? nearestDistance n) = false).
  Proof.
    revert pre best. induction rest as [|r rest IH]; intros pre best Hlt H1 H2; cbn.
    - split; [|done]. intros j x Hx. apply (H1 j x); [|done].
      apply lookup_lt_Some in Hx. by rewrite app_nil_r in Hx.
    - specialize (IH (pre ++ [r])). rewrite length_app, Nat.add_1_r in IH.
      rewrite <- app_assoc in IH. cbn in IH. apply IH; clear IH.
      + destruct (dist current r <? nearestDistance best); cbn; lia.
      + intros j x Hj Hx.
        destruct (dist current r <? nearestDistance best) eqn:E; cbn.
        * destruct (decide (j = length pre)) as [->|Hne].
          { rewrite list_lookup_middle in Hx by done. injection Hx as <-.
            apply ltb_irrefl. }
          apply not_true_is_false. intros C.
          pose proof (ltb_trans _ _ _ C E) as C'.
          rewrite (H1 j x) in C'; [discriminate| lia | done].
        * destruct (decide (j = length pre)) as [->|Hne].
          { rewrite list_lookup_middle in Hx by done. by injection Hx as <-. }
          apply (H1 j x); [lia | done].
      + intros j x Hj Hx.
        destruct (dist current r <? nearestDistance best) eqn:E; cbn in *.
        * apply not_true_is_false. intros C.
          pose proof (leb_ltb_trans _ _ _ C E) as C'.
          rewrite (H1 j x) in C'; [discriminate| lia | done].
        * by apply (H2 j x).
  Qed.

  (** Lines 226-237 select the stop [nearest_first] describes. *)
Lemma find_nearest_spec current r0 rest :
    let n := find_nearest current r0 rest in
    nearest_first current (r0 :: rest) (nearestIndex n) (nearest n) ∧
    nearestDistance n = dist current (nearest n).
  Proof.
    set (best := {| nearest := r0; nearestDistance := dist current r0;
                    nearestIndex := 0 |}).
    destruct (for_loop_index current [r0] rest best) as [Hi Hd]; [done..|].
    destruct (for_loop_min current [r0] rest best) as [H1 H2].
    - cbn. lia.
    - intros j r Hj Hr. destruct j; [|cbn in Hj; lia].
      injection Hr as <-. apply ltb_irrefl.
    - intros j r Hj. cbn in Hj. lia.
    - cbn [length app] in *.
      change (for_loop current rest 1 best) with (find_nearest current r0 rest) in *.
      split; [|done]. split; [done|]. rewrite <- Hd. split; [exact H1 | exact H2].
  Qed.

  (** The [while] loop, given enough iterations, ends with [remaining]
      empty, having appended to the route an [order] of the stops that it
      found by [nearest_first], and having added up its legs. *)
Lemma while_loop_spec fuel s :
    (length (st_remaining s) ≤ fuel)%nat →
    ∃ order,
      st_remaining (while_loop fuel s) = [] ∧
      st_route (while_loop fuel s) = st_route s ++ order ∧
      st_totalDistance (while_loop fuel s) =
        path_sum (st_totalDistance s) (st_current s) order ∧
      order ≡ₚ st_remaining s ∧
      greedy_order nearest_first (st_current s) (st_remaining s) order.
  Proof.
    revert s. induction fuel as [|fuel IH]; intros s Hlen.
    - destruct s as [rt [|r0 rest] cur tot]; cbn in *; [|lia].
      exists []. rewrite app_nil_r. repeat split; try done. constructor.
    - destruct s as [rt [|r0 rest] cur tot]; cbn in *.
      + exists []. rewrite app_nil_r. repeat split; try done. constructor.
      + destruct (find_nearest_spec cur r0 rest) as [Hsel Hd].
        set (n := find_nearest cur r0 rest) in *.
        pose proof Hsel as (Hk & _).
        unfold loop_body; cbn. fold n.
        destruct (IH {| st_route := rt ++ [nearest n];
                        st_remaining := delete (nearestIndex n) (r0 :: rest);
                        st_current := nearest n;
                        st_totalDistance := tot + nearestDistance n |})
          as (order & Hex & Hrt & Htot & Hperm & Hgreedy).
        { cbn [st_remaining]. rewrite length_delete by eauto. cbn. lia. }
        cbn [st_route st_remaining st_current st_totalDistance] in *.
        exists (nearest n :: order). split; [done|]. split.
        { by rewrite Hrt, <- app_assoc. }
        split. { cbn. by rewrite Htot, Hd. }
        split. { rewrite Hperm. symmetry. by apply delete_Permutation. }
        by econstructor.
  Qed.

  (** With the fuel [optimizeRoute] gives it the loop reaches its exit
      condition, and more fuel changes nothing. *)
Lemma while_loop_exits s :
    st_remaining (while_loop (length (st_remaining s)) s) = [].
  Proof. by destruct (while_loop_spec _ s (le_n _)) as (? & ? & _). Qed.

Lemma while_loop_fuel fuel s :
    st_remaining (while_loop fuel s) = [] →
    while_loop (S fuel) s = while_loop fuel s.
  Proof.
    revert s. induction fuel as [|fuel IH]; intros s H.
    - destruct s as [rt [|r0 rest] cur tot]; cbn in *; done.
    - destruct s as [rt [|r0 rest] cur tot]; [done|].
      change (while_loop (S (S fuel)) ?s) with (while_loop (S fuel) (loop_body s)).
      change (while_loop (S fuel) ?s) with (while_loop fuel (loop_body s)) at 2.
      by apply IH.
  Qed.

Lemma optimizeRoute_spec start stops :
    ∃ order,
      optimizeRoute start stops =
        {| route := start :: order; totalDistance := path_sum 0 start order |} ∧
      order ≡ₚ stops ∧
      greedy_order nearest_first start stops order.
  Proof.
    destruct stops as [|r0 rest].
    - exists []. repeat split; try done. constructor.
    - unfold optimizeRoute.
      destruct (while_loop_spec (length (r0 :: rest))
                  {| st_route := [start]; st_remaining := r0 :: rest;
                     st_current := start; st_totalDistance := 0 |})
        as (order & _ & Hrt & Htot & Hperm & Hgreedy); [done|].
      exists order. rewrite Hrt, Htot. done.
  Qed.

Lemma path_sum_legs acc p order :
    fold_left (fun a leg => a + dist leg.1 leg.2) (legs (p :: order)) acc =
    path_sum acc p order.
  Proof.
    revert acc p. induction order as [|q order IH]; intros acc p; [done|].
    change (legs (p :: q :: order)) with ((p, q) :: legs (q :: order)).
    cbn [fold_left path_sum fst snd]. apply IH.
  Qed.

  (** C4.  With no stops, [optimizeRoute] returns the route [[start]] and
      the total distance 0. *)
Theorem optimizeRoute_no_stops (start : Location) :
    optimizeRoute start [] = {| route := [start]; totalDistance := 0 |}.
  Proof. reflexivity. Qed.

  (** C6.  The total distance [optimizeRoute] returns is the sum, taken in
      route order, of [calculateDistance] over the consecutive pairs of the
      route it returns: each leg is rounded by [calculateDistance] before it
      is added. *)
Theorem optimizeRoute_totalDistance (start : Location) (stops : list Location) :
    totalDistance (optimizeRoute start stops) =
    sum_of_legs (route (optimizeRoute start stops)).
  Proof.
    destruct (optimizeRoute_spec start stops) as (order & -> & _).
    unfold sum_of_legs. cbn [route totalDistance]. by rewrite path_sum_legs.
  Qed.

  (** C10.  The route [optimizeRoute] returns has one element more than the
      stop list, begins with [start], and continues with a permutation of
      the stops. *)
Theorem optimizeRoute_permutation (start : Location) (stops : list Location) :
    length (route (optimizeRoute start stops)) = S (length stops) ∧
    head (route (optimizeRoute start stops)) = Some start ∧
    tail (route (optimizeRoute start stops)) ≡ₚ stops.
  Proof.
    destruct (optimizeRoute_spec start stops) as (order & -> & Hperm & _).
    cbn. by rewrite Hperm.
  Qed.

  (** When the distances are Numbers the selected stop is at the minimum
      distance and first among those at that distance. *)
Lemma nearest_first_min current remaining k s :
    (∀ r, r ∈ remaining → is_nan (dist current r) = false) →
    nearest_first current remaining k s → nearest_min current remaining k s.
  Proof.
    intros Hnum (Hk & H1 & H2).
    assert (is_nan (dist current s) = false) as Hs.
    { apply Hnum. by eapply list_elem_of_lookup_2. }
    split; [done|]. split.
    - intros j r Hr. apply ltb_false_leb; [|done|by eapply H1].
      apply Hnum. by eapply list_elem_of_lookup_2.
    - intros j r Hj Hr. apply leb_false_ltb; [|done|by eapply H2].
      apply Hnum. by eapply list_elem_of_lookup_2.
  Qed.

Lemma greedy_order_min ls current remaining order :
    distances_are_numbers ls →
    current ∈ ls → (∀ r, r ∈ remaining → r ∈ ls) →
    greedy_order nearest_first current remaining order →
    greedy_order nearest_min current remaining order.
  Proof.
    intros Hnum Hc Hsub G. induction G as [|current remaining k s order Hsel G IH].
    - constructor.
    - assert (s ∈ remaining) as Hs.
      { destruct Hsel as [Hk _]. by eapply list_elem_of_lookup_2. }
      econstructor.
      + apply nearest_first_min; [|done]. intros r Hr. apply Hnum; auto.
      + apply IH; [auto|]. intros r Hr. apply Hsub.
        by eapply list_elem_of_delete_inv.
  Qed.

  (** The two descriptions of the next stop never disagree, so an order
      that follows [nearest_min] is the order [nearest_first] gives. *)
Lemma nearest_min_first_agree current remaining k s k' s' :
    nearest_min current remaining k' s' →
    nearest_first current remaining k s →
    k' = k ∧ s' = s.
  Proof.
    intros (Hk' & M1 & M2) (Hk & F1 & F2).
    assert (k' = k) as ->; [|split; [done|congruence]].
    destruct (Nat.lt_total k k') as [Hlt|[->|Hlt]]; [|done|].
    - pose proof (M2 k s Hlt Hk) as C. rewrite (F1 k' s' Hk') in C. discriminate.
    - pose proof (M1 k s Hk) as C. rewrite (F2 k' s' Hlt Hk') in C. discriminate.
  Qed.

Lemma greedy_order_agree current remaining order order' :
    greedy_order nearest_min current remaining order' →
    greedy_order nearest_first current remaining order →
    order' = order.
  Proof.
    intros G'. revert order.
    induction G' as [|current remaining k' s' order' Hsel' G' IH]; intros order G.
    - inversion G as [|? ? k s ? Hsel]; [done|]. subst.
      destruct Hsel as [Hk _]. done.
    - inversion G as [|? ? k s order0 Hsel G0]; subst.
      + destruct Hsel' as [Hk _]. done.
      + destruct (nearest_min_first_agree _ _ _ _ _ _ Hsel' Hsel) as [-> ->].
        f_equal. by apply IH.
  Qed.

  (** The six orders of three stops. *)
Lemma Permutation_three (A B C : Location) (l : list Location) :
    l ≡ₚ [A; B; C] →
    l = [A; B; C] ∨ l = [A; C; B] ∨ l = [B; A; C] ∨
    l = [B; C; A] ∨ l = [C; A; B] ∨ l = [C; B; A].
  Proof.
    intros H. symmetry in H. apply permutations_Permutation in H.
    cbn in H. rewrite !elem_of_cons, elem_of_nil in H. tauto.
  Qed.

  Local Arguments dist : simpl never.

  (** Whatever the input order of three stops [A], [B], [C], when [A] is
      strictly nearest to [start] and [B] strictly nearer to [A] than [C]
      is, the route is [start, A, B, C]. *)
Lemma optimizeRoute_three start A B C stops :
    stops ≡ₚ [A; B; C] →
    (dist start A <? dist start B) = true →
    (dist start A <? dist start C) = true →
    (dist A B <? dist A C) = true →
    route (optimizeRoute start stops) = [start; A; B; C].
  Proof.
    intros Hperm HAB HAC HBC.
    pose proof (ltb_asym _ _ HAB) as HBA.
    pose proof (ltb_asym _ _ HAC) as HCA.
    pose proof (ltb_asym _ _ HBC) as HCB.
    destruct (Permutation_three _ _ _ _ Hperm) as [->|[->|[->|[->|[->| ->]]]]];
      unfold optimizeRoute, while_loop, loop_body, find_nearest; cbn;
      rewrite ?HAB, ?HAC, ?HBA, ?HCA; cbn;
      rewrite ?HAB, ?HAC, ?HBA, ?HCA, ?HBC, ?HCB; cbn; try reflexivity;
      destruct (dist start B <? dist start C) eqn:E1;
      destruct (dist start C <? dist start B) eqn:E2; cbn;
      rewrite ?HAB, ?HAC, ?HBA, ?HCA, ?HBC, ?HCB; cbn;
      rewrite ?HAB, ?HAC, ?HBA, ?HCA, ?HBC, ?HCB; cbn; reflexivity.
  Qed.

  (** C5.  The route after [start] is the order of the nearest-neighbour
      rule: each stop appended is, among the stops still remaining (kept in
      input order), one that no remaining stop is nearer than, and that no
      earlier remaining stop is as near as.  When all distances are Numbers
      it is the stop at the minimum distance, the earliest on a tie, and
      any order that follows that rule is the one returned.  For three stops
      with [A] strictly nearest to [start] and then [B] strictly nearest to
      [A], the route is [start, A, B, C] for every input order; and equal
      inputs give equal routes. *)
Theorem optimizeRoute_nearest_neighbour (start : Location) (stops : list Location) :
    greedy_order nearest_first start stops (tail (route (optimizeRoute start stops))) ∧
    (distances_are_numbers (start :: stops) →
     greedy_order nearest_min start stops (tail (route (optimizeRoute start stops)))) ∧
    (∀ order, greedy_order nearest_min start stops order →
              route (optimizeRoute start stops) = start :: order) ∧
    (∀ A B C, stops ≡ₚ [A; B; C] →
              (dist start A <? dist start B) = true →
              (dist start A <? dist start C) = true →
              (dist A B <? dist A C) = true →
              route (optimizeRoute start stops) = [start; A; B; C]) ∧
    (∀ start' stops', start' = start → stops' = stops →
                      route (optimizeRoute start' stops') =
                      route (optimizeRoute start stops)).
  Proof.
    destruct (optimizeRoute_spec start stops) as (order & Heq & Hperm & Hgreedy).
    split; [by rewrite Heq|]. split; [|split; [|split]].
    - intros Hnum. rewrite Heq. cbn [route tail].
      apply (greedy_order_min (start :: stops)); [done|set_solver|set_solver|done].
    - intros order' G. rewrite Heq. cbn [route]. f_equal. symmetry.
      by eapply greedy_order_agree.
    - intros A B C. apply optimizeRoute_three.
    - by intros ? ? -> ->.
  Qed.

End Route.

(* ===================================================================== *)
(** * Postal codes and the search query *)
(* ===================================================================== *)

Section PostalCode.
Local Arguments RegExp.letter : simpl never.
Local Arguments RegExp.digit : simpl never.
Local Arguments RegExp.space_or_hyphen : simpl never.

Lemma matches_nil s : RegExp.matches [] s = false.
Proof. induction s; [done|]. cbn. done. Qed.

Local Ltac regex_step H :=
  cbn in H;
  repeat match type of H with
         | context [RegExp.letter ?c] => destruct (RegExp.letter c) eqn:?; cbn in H
         | context [RegExp.digit ?c] => destruct (RegExp.digit c) eqn:?; cbn in H
         | context [RegExp.space_or_hyphen ?c] =>
             destruct (RegExp.space_or_hyphen c) eqn:?; cbn in H
         end;
  try (rewrite matches_nil in H);
  try discriminate H.

Local Ltac regex_goal :=
  cbn;
  repeat match goal with
         | H : ?t = _ |- context [?t] => rewrite H; cbn
         | |- context [RegExp.letter ?c] => destruct (RegExp.letter c) eqn:?; cbn
         | |- context [RegExp.digit ?c] => destruct (RegExp.digit c) eqn:?; cbn
         | |- context [RegExp.space_or_hyphen ?c] =>
             destruct (RegExp.space_or_hyphen c) eqn:?; cbn
         end;
  try reflexivity.

(** The strings [postalCodeRegex] matches. *)
Lemma postalCodeRegex_shape s :
  RegExp.test postalCodeRegex s = true ↔ postal_shape s.
Proof.
  unfold RegExp.test. split.
  - intros H.
    destruct s as [|c1 s]; regex_step H.
    destruct s as [|c2 s]; regex_step H.
    destruct s as [|c3 s]; regex_step H.
    destruct s as [|c4 s]; regex_step H.
    all: destruct s as [|c5 s]; regex_step H.
    all: destruct s as [|c6 s]; regex_step H.
    all: try (destruct s as [|c7 s]; regex_step H).
    all: try (destruct s as [|c8 s]; regex_step H).
    all: unfold postal_shape.
    all: first
      [ by (exists c1, c2, c3, c4, c5, c6; repeat split; try done; left)
      | by (exists c1, c2, c3, c5, c6, c7; repeat split; try done;
            right; exists c4) ].
  - intros (c1 & c2 & c3 & c4 & c5 & c6 & H1 & H2 & H3 & H4 & H5 & H6 & Hs).
    destruct Hs as [-> | (sep & Hsep & ->)]; regex_goal.
Qed.

(** C7.  [isPostalCode] accepts "K1A0B1" and "K1A 0B1" and rejects "12345"
    and "K1A0B"; in general it accepts exactly the inputs that, once their
    white space is removed, are a letter, a digit, a letter, an optional
    space or hyphen, a digit, a letter and a digit. *)
Theorem isPostalCode_examples :
  isPostalCode "K1A0B1" = true ∧
  isPostalCode "K1A 0B1" = true ∧
  isPostalCode "12345" = false ∧
  isPostalCode "K1A0B" = false ∧
  (∀ input, isPostalCode input = true ↔
            postal_shape (RegExp.remove_white_space input)).
Proof.
  repeat split; try (vm_compute; reflexivity);
    unfold isPostalCode; apply postalCodeRegex_shape.
Qed.

(** C8.  The two branches of the [if] in [geocodeCanadianLocation] build
    the same search query, the query followed by ", Canada", so the query
    sent does not depend on [isPostalCode]. *)
Theorem searchQuery_same_in_both_branches (query : string) :
  searchQuery_branch true query = searchQuery_branch false query ∧
  searchQuery query = (query +:+ ", Canada")%string.
Proof.
  split; [reflexivity|]. unfold searchQuery.
  destruct (isPostalCode query); reflexivity.
Qed.

End PostalCode.

(* ===================================================================== *)
(** * The cost calculator and the shipping form *)
(* ===================================================================== *)

Section Shipping.
Context {RT : Runtime}.
Local Open Scope float_scope.

Lemma shippingRates_standard : js_get shippingRates "standard" = Own standard.
Proof. reflexivity. Qed.

Lemma shippingRates_express : js_get shippingRates "express" = Own express.
Proof. reflexivity. Qed.

Lemma shippingRates_overnight : js_get shippingRates "overnight" = Own overnight.
Proof. reflexivity. Qed.

(** The table has the three tiers and nothing else. *)
Lemma shippingRates_lookup tier rates :
  shippingRates !! tier = Some rates ↔
  tier = "standard"%string ∧ rates = standard ∨
  tier = "express"%string ∧ rates = express ∨
  tier = "overnight"%string ∧ rates = overnight.
Proof.
  unfold shippingRates. rewrite !lookup_insert_Some, lookup_empty. naive_solver.
Qed.

(** For an entry of the table the result is the formula of lines 167-169. *)
Lemma calculateShippingCost_own origin destination weight tier rates :
  shippingRates !! tier = Some rates →
  calculateShippingCost origin destination weight tier =
  Normal {| cost := baseCost rates + dist origin destination * perKm rates +
                    weight * perPound rates;
            distance := dist origin destination;
            deliveryDays := Some (days rates) |}.
Proof. intros H. unfold calculateShippingCost, js_get. by rewrite H. Qed.

(** C1.  For each of the three tiers [calculateShippingCost] returns the
    tier's base cost, plus the rounded haversine distance times the tier's
    rate per kilometre, plus the weight times the tier's rate per pound (in
    that order, in Number arithmetic), together with that distance and the
    tier's fixed delivery-day interval, which depends on nothing else. *)
Theorem calculateShippingCost_formula (origin destination : Location) (weight : float) :
  let d := calculateDistance (Location.lat origin) (Location.lng origin)
             (Location.lat destination) (Location.lng destination) in
  calculateShippingCost origin destination weight "standard" =
    Normal {| cost := 18 + d * 0.65 + weight * 0.15;
              distance := d; deliveryDays := Some (3, 5) |} ∧
  calculateShippingCost origin destination weight "express" =
    Normal {| cost := 42 + d * 0.95 + weight * 0.22;
              distance := d; deliveryDays := Some (1, 2) |} ∧
  calculateShippingCost origin destination weight "overnight" =
    Normal {| cost := 85 + d * 1.45 + weight * 0.40;
              distance := d; deliveryDays := Some (1, 1) |}.
Proof.
  cbv zeta. unfold calculateShippingCost.
  rewrite shippingRates_standard, shippingRates_express, shippingRates_overnight.
  repeat split.
Qed.

Local Ltac alert_case :=
  split; [auto|];
  split; [intros; exfalso; naive_solver|];
  split; [intros; exfalso; naive_solver|];
  intros; left; auto 10.

(** C2, as the code has it.  The submit handler alerts and does nothing
    else exactly when a selection is missing, the parsed weight is NaN or
    zero, the tier is the empty string, or origin and destination have the
    same id; otherwise, for a tier of the table, it renders the estimate
    [calculateShippingCost] computes, whatever the sign of the weight. *)
Theorem shippingForm_submit_validation (selectedCities : SelectedCities.t)
    (weightValue shippingTypeValue : string) :
  (fields_missing selectedCities weightValue shippingTypeValue →
   shippingForm_submit selectedCities weightValue shippingTypeValue =
   [Alert "Please select valid Canadian locations and fill in all fields"]) ∧
  (∀ origin destination,
     SelectedCities.origin selectedCities = Some origin →
     SelectedCities.destination selectedCities = Some destination →
     ¬ fields_missing selectedCities weightValue shippingTypeValue →
     Location.id origin = Location.id destination →
     shippingForm_submit selectedCities weightValue shippingTypeValue =
     [Alert "Origin and destination cannot be the same"]) ∧
  (∀ origin destination rates,
     SelectedCities.origin selectedCities = Some origin →
     SelectedCities.destination selectedCities = Some destination →
     ¬ fields_missing selectedCities weightValue shippingTypeValue →
     Location.id origin ≠ Location.id destination →
     shippingRates !! shippingTypeValue = Some rates →
     shippingForm_submit selectedCities weightValue shippingTypeValue =
     rendered origin destination (parseFloat weightValue) rates) ∧
  (∀ msg,
     Alert msg ∈ shippingForm_submit selectedCities weightValue shippingTypeValue →
     fields_missing selectedCities weightValue shippingTypeValue ∨
     ∃ origin destination,
       SelectedCities.origin selectedCities = Some origin ∧
       SelectedCities.destination selectedCities = Some destination ∧
       Location.id origin = Location.id destination).
Proof.
  unfold shippingForm_submit, fields_missing.
  destruct selectedCities as [[origin|] [destination|] start stops]; cbn.
  2-4: by alert_case.
  destruct (truthy_number (parseFloat weightValue)) eqn:Ew; cbn.
  2: by alert_case.
  destruct shippingTypeValue as [|c tier]; cbn.
  1: by alert_case.
  destruct (Z.eqb_spec (Location.id origin) (Location.id destination)) as [Hid|Hid].
  - split; [naive_solver|]. split; [naive_solver|]. split; [naive_solver|].
    intros msg _. right. eauto.
  - split; [naive_solver|]. split; [naive_solver|]. split.
    + intros o d rates [= <-] [= <-] _ _ Hrates.
      rewrite (calculateShippingCost_own _ _ _ _ _ Hrates). cbn.
      unfold rendered. by destruct (days rates).
    + intros msg. destruct (calculateShippingCost _ _ _ _) as [r|]; cbn.
      * destruct (deliveryDays r) as [[d0 d1]|]; cbn;
          rewrite ?elem_of_cons, ?elem_of_nil; naive_solver.
      * rewrite ?elem_of_cons, ?elem_of_nil; naive_solver.
Qed.

End Shipping.

(* ===================================================================== *)
(** * The geocoding client *)
(* ===================================================================== *)

Section Geocoding.
Context {RT : Runtime}.

(** A call that finds the query in the cache returns what it finds and
    leaves the page as it is: no request is made. *)
Lemma geocode_hit query w v :
  cached_value (js_get (World.cityCache w) query) = Some v →
  geocodeCanadianLocation query w = (v, w).
Proof.
  unfold geocodeCanadianLocation.
  destruct (js_get (World.cityCache w) query); cbn; congruence.
Qed.

(** A call never changes what the cache holds for a query it already
    answers: entries are only added, and only under queries that were
    [undefined]. *)
Lemma geocode_keeps_entry query query' w v :
  cached_value (js_get (World.cityCache w) query) = Some v →
  cached_value (js_get (World.cityCache (geocodeCanadianLocation query' w).2) query)
  = Some v.
Proof.
  intros Hv. unfold geocodeCanadianLocation.
  destruct (js_get (World.cityCache w) query') eqn:E'; cbn; try done.
  destruct (World.network w) as [|[| |data] net]; cbn; try done.
  assert (query' ≠ query) as Hne.
  { intros ->. rewrite E' in Hv. discriminate. }
  unfold js_get in *. by rewrite lookup_insert_ne.
Qed.

Lemma geocode_all_keeps_entry queries query w v :
  cached_value (js_get (World.cityCache w) query) = Some v →
  cached_value (js_get (World.cityCache (geocode_all queries w)) query) = Some v.
Proof.
  revert w. induction queries as [|q queries IH]; intros w Hv; [done|].
  cbn. apply IH. by apply geocode_keeps_entry.
Qed.

(** After a call that did not fail the cache answers the query with the
    value the call returned. *)
Lemma geocode_caches query w :
  call_fails query w = false →
  cached_value
    (js_get (World.cityCache (geocodeCanadianLocation query w).2) query)
  = Some (geocodeCanadianLocation query w).1.
Proof.
  unfold call_fails, geocodeCanadianLocation.
  destruct (js_get (World.cityCache w) query) eqn:E; cbn; try (by rewrite E).
  destruct (World.network w) as [|[| |data] net]; cbn; try done.
  intros _. unfold js_get. by rewrite lookup_insert_eq.
Qed.

(** C9, as the code has it.  Once a call with a query has returned without
    a network or parsing failure, a later call with the same query, after
    any calls in between, makes no request and returns the same value.  A
    call that failed returned the empty list and cached nothing: the very
    next call with that query goes to the network again. *)
Theorem geocode_repeat_after_success (query : string) (w : World)
    (between : list string) :
  let first := geocodeCanadianLocation query w in
  let later := geocode_all between first.2 in
  (call_fails query w = false →
   geocodeCanadianLocation query later = (first.1, later)) ∧
  (call_fails query w = true →
   first.1 = Locations [] ∧
   World.cityCache first.2 = World.cityCache w ∧
   World.requests (geocodeCanadianLocation query first.2).2 =
   World.requests first.2 ++ [request_url query]).
Proof.
  cbv zeta. split.
  - intros Hok. apply geocode_hit, geocode_all_keeps_entry.
    by apply geocode_caches.
  - unfold call_fails, geocodeCanadianLocation.
    destruct (js_get (World.cityCache w) query) eqn:E; cbn; try done.
    destruct (World.network w) as [|[| |data] net]; cbn; try done;
      intros _; rewrite E; cbn;
      repeat split; by destruct net as [|[| |?] ?].
Qed.

End Geocoding.

(* ===================================================================== *)
(** * The distance calculator *)
(* ===================================================================== *)

Section Distance.
Context {RT : Runtime} (laws : trig_laws RT).
Local Open Scope float_scope.

Lemma haversine_term_opp d : haversine_term (- d) = haversine_term d.
Proof.
  unfold haversine_term. rewrite div_opp_l, (sin_odd _ laws). apply mul_opp_opp.
Qed.

Lemma haversine_term_swap x y :
  haversine_term ((y - x) * Math_PI / 180) = haversine_term ((x - y) * Math_PI / 180).
Proof.
  destruct (sub_antisym x y) as [H|[H1 H2]].
  - rewrite H, mul_opp_l, div_opp_l. apply haversine_term_opp.
  - by rewrite H1, H2.
Qed.

Lemma mul_opp_r x y : x * - y = - (x * y).
Proof. by rewrite (mul_comm x), mul_opp_l, (mul_comm y). Qed.

Lemma scaled_term_swap c x y :
  c * Math_sin ((y - x) * Math_PI / 180 / 2) * Math_sin ((y - x) * Math_PI / 180 / 2) =
  c * Math_sin ((x - y) * Math_PI / 180 / 2) * Math_sin ((x - y) * Math_PI / 180 / 2).
Proof.
  destruct (sub_antisym x y) as [H|[H1 H2]].
  - rewrite H, mul_opp_l, !div_opp_l, (sin_odd _ laws).
    by rewrite !mul_opp_r, mul_opp_l, opp_involutive.
  - by rewrite H1, H2.
Qed.

Lemma calculateDistance_sym lat1 lng1 lat2 lng2 :
  calculateDistance lat1 lng1 lat2 lng2 = calculateDistance lat2 lng2 lat1 lng1.
Proof.
  unfold calculateDistance. cbv zeta.
  fold (haversine_term ((lat2 - lat1) * Math_PI / 180)).
  fold (haversine_term ((lat1 - lat2) * Math_PI / 180)).
  rewrite (haversine_term_swap lat1 lat2).
  rewrite (mul_comm (Math_cos (lat1 * Math_PI / 180))).
  by rewrite (scaled_term_swap _ lng1 lng2).
Qed.

Lemma to_radians_finite x E mlo mhi lo hi :
  Prim2SF lo = S754_finite true mlo E →
  Prim2SF hi = S754_finite false mhi E →
  (-100 ≤ E ≤ 0)%Z →
  (lo <=? x) && (x <=? hi) = true →
  is_finite (x * Math_PI / 180) = true.
Proof.
  intros Hlo Hhi HE Hx. rewrite is_finite_SF, div_spec, mul_spec.
  assert (SFbounded (Z.max (E + -51 + 215) (-966))
            (SF64mul (Prim2SF x) (Prim2SF Math_PI))) as Hmul.
  { apply SFmul_bounded; [apply Prim2SF_valid..| | |lia].
    - by eapply range_bounded.
    - by vm_compute. }
  rewrite <- mul_spec in *.
  eapply SFbounded_finite, (SFdiv_bounded _ _ _ (-45)); [apply Prim2SF_valid..| | |].
  - exact Hmul.
  - exists false, 6333186975989760%positive, (-45)%Z. split; [reflexivity | lia].
  - lia.
Qed.

Lemma cos_product_finite x y :
  is_finite x = true -> is_finite y = true ->
  is_finite (Math_cos x * Math_cos y) = true.
Proof.
  intros Hx Hy. rewrite is_finite_SF, mul_spec.
  eapply SFbounded_finite, (SFmul_bounded _ _ (-52) (-52));
    [apply Prim2SF_valid..| | |lia].
  - eapply (range_bounded (-1) 1); [reflexivity..|]. by apply (cos_range _ laws).
  - eapply (range_bounded (-1) 1); [reflexivity..|]. by apply (cos_range _ laws).
Qed.

Lemma calculateDistance_same lat lng :
  valid_lat lat = true -> valid_lng lng = true ->
  calculateDistance lat lng lat lng = 0.
Proof.
  intros Hlat Hlng. unfold calculateDistance. cbv zeta.
  assert (is_finite lat = true) as Flat.
  { rewrite is_finite_SF. eapply SFbounded_finite, (range_bounded (-90) 90); [reflexivity..|done]. }
  assert (is_finite lng = true) as Flng.
  { rewrite is_finite_SF. eapply SFbounded_finite, (range_bounded (-180) 180); [reflexivity..|done]. }
  rewrite !sub_diag by done.
  change (0 * Math_PI / 180 / 2) with 0.
  rewrite (sin_zero _ laws).
  assert (is_finite (lat * Math_PI / 180) = true) as Frad.
  { eapply (to_radians_finite lat (-46) _ _ (-90) 90); [reflexivity..|lia|exact Hlat]. }
  pose proof (cos_product_finite _ _ Frad Frad) as Fcos.
  destruct (mul_zero_r _ Fcos) as [-> | ->].
  - change (0 * 0 + 0 * 0) with 0. change (Math_sqrt 0) with 0.
    change (Math_sqrt (1 - 0)) with 1. rewrite (atan2_zero _ laws). reflexivity.
  - change (0 * 0 + -0 * 0) with 0. change (Math_sqrt 0) with 0.
    change (Math_sqrt (1 - 0)) with 1. rewrite (atan2_zero _ laws). reflexivity.
Qed.
(** C3.  On a runtime with [trig_laws], for points with valid latitudes and
    longitudes the distance from a point to itself is 0 and the distance is
    the same in both directions. *)
Theorem calculateDistance_zero_symmetric (latA lngA latB lngB : float) :
  valid_lat latA = true → valid_lng lngA = true →
  valid_lat latB = true → valid_lng lngB = true →
  calculateDistance latA lngA latA lngA = 0 ∧
  calculateDistance latA lngA latB lngB = calculateDistance latB lngB latA lngA.
Proof.
  intros HlatA HlngA _ _. split.
  - by apply calculateDistance_same.
  - apply calculateDistance_sym.
Qed.

End Distance.

(* ===================================================================== *)
(** * The properties on concrete inputs, with the reference runtime *)
(* ===================================================================== *)

(** The scenario of the specification: Toronto to Montreal is 504 km. *)
Example toronto_montreal_distance :
  dist (RT:=RefRuntime) toronto montreal = 504%float.
Proof. vm_compute. reflexivity. Qed.

(** C2 fails as stated: a negative weight is priced and rendered, and a
    tier outside the table raises an exception instead of an alert. *)
Lemma shippingForm_negative_weight_rendered :
  (@parseFloat RefRuntime "-5" <? 0)%float = true ∧
  shippingForm_submit (RT:=RefRuntime) origin_and_destination "-5" "standard" =
    [ SetShippingCost (18 + 504 * 0.65 + -5 * 0.15)%float;
      SetDeliveryTime (DayRange 3 5);
      SetDistance 504;
      ShowShippingResults ] ∧
  shippingForm_submit (RT:=RefRuntime) origin_and_destination "10" "priority" =
    [UncaughtTypeError].
Proof. vm_compute. repeat split. Qed.

Lemma shippingForm_submit_validation_witness :
  shippingForm_submit (RT:=RefRuntime) origin_and_destination "10" "express" =
  rendered (RT:=RefRuntime) toronto montreal 10 express.
Proof.
  apply (shippingForm_submit_validation (RT:=RefRuntime)
           origin_and_destination "10" "express"); try reflexivity.
  - unfold fields_missing. intros [H|[H|[H|H]]]; vm_compute in H; discriminate.
  - vm_compute. discriminate.
Defined.

(** C9 fails as stated: after a failed call the same query is requested
    again. *)
Lemma geocode_failure_not_cached :
  (geocodeCanadianLocation (RT:=RefRuntime) "Ottawa" offline_then_online).1 =
    Locations [] ∧
  World.requests
    (geocodeCanadianLocation (RT:=RefRuntime) "Ottawa"
       (geocodeCanadianLocation (RT:=RefRuntime) "Ottawa" offline_then_online).2).2 =
    [ "https://nominatim.openstreetmap.org/search?format=json&q=Ottawa%2C%20Canada&countrycodes=ca&limit=8&addressdetails=1";
      "https://nominatim.openstreetmap.org/search?format=json&q=Ottawa%2C%20Canada&countrycodes=ca&limit=8&addressdetails=1" ]%string.
Proof. vm_compute. split; reflexivity. Qed.

Lemma geocode_repeat_after_success_witness :
  call_fails "Ottawa" online = false ∧
  geocodeCanadianLocation (RT:=RefRuntime) "Ottawa"
    (geocode_all (RT:=RefRuntime) ["Toronto"; "K1A 0B1"]%string
       (geocodeCanadianLocation (RT:=RefRuntime) "Ottawa" online).2) =
  ((geocodeCanadianLocation (RT:=RefRuntime) "Ottawa" online).1,
   geocode_all (RT:=RefRuntime) ["Toronto"; "K1A 0B1"]%string
     (geocodeCanadianLocation (RT:=RefRuntime) "Ottawa" online).2).
Proof.
  split; [reflexivity|].
  apply (geocode_repeat_after_success (RT:=RefRuntime) "Ottawa" online
           ["Toronto"; "K1A 0B1"]%string).
  reflexivity.
Defined.

Lemma optimizeRoute_nearest_neighbour_witness :
  route (optimizeRoute (RT:=RefRuntime) toronto [montreal; ottawa; kingston]) =
  [toronto; kingston; ottawa; montreal].
Proof.
  destruct (optimizeRoute_nearest_neighbour (RT:=RefRuntime) toronto
              [montreal; ottawa; kingston]) as (_ & _ & _ & H & _).
  apply H.
  - exact (Permutation.Permutation_rev [montreal; ottawa; kingston]).
  - vm_compute. reflexivity.
  - vm_compute. reflexivity.
  - vm_compute. reflexivity.
Defined.

(** The reference runtime has the [trig_laws]. *)
Lemma RefRuntime_trig_laws : trig_laws RefRuntime.
Proof.
  split.
  - reflexivity.
  - intros x. cbn. unfold Ref.sin. by rewrite mul_opp_opp, mul_opp_l.
  - intros x Hx. cbn. unfold Ref.cos. cbv zeta.
    destruct ((-1 <=? Ref.nested (x * x) 1 14)%float &&
              (Ref.nested (x * x) 1 14 <=? 1)%float) eqn:E; [exact E|].
    rewrite Hx. reflexivity.
  - reflexivity.
Qed.

Lemma calculateDistance_zero_symmetric_witness :
  calculateDistance (RT:=RefRuntime) 43.65 (-79.38) 43.65 (-79.38) = 0%float ∧
  calculateDistance (RT:=RefRuntime) 43.65 (-79.38) 45.50 (-73.57) =
  calculateDistance (RT:=RefRuntime) 45.50 (-73.57) 43.65 (-79.38).
Proof.
  apply (calculateDistance_zero_symmetric RefRuntime_trig_laws); reflexivity.
Defined.

(* ===================================================================== *)
(** * The rest of the page: stops, selections, the route form, debounce *)
(* ===================================================================== *)

(* ===================================================================== *)
(** * The stop list *)
(* ===================================================================== *)

Section Stops.
Context {RT : Runtime}.

(** Two ids print the same exactly when they are equal. *)
Lemma same_id_true i stop : same_id i stop = true ↔ Location.id stop = i.
Proof.
  unfold same_id, toString. rewrite String.eqb_eq. split; [|by intros ->].
  apply (inj pretty).
Qed.

Lemma existsb_same_id i stops :
  existsb (same_id i) stops = true ↔ i ∈ stop_ids stops.
Proof.
  unfold stop_ids. induction stops as [|stop stops IH]; cbn.
  - split; [done|]. by intros ?%elem_of_nil.
  - rewrite orb_true_iff, IH, same_id_true, elem_of_cons.
    split; intros [H|H]; auto.
Qed.

Lemma filter_other_ids i stops :
  i ∉ stop_ids stops →
  List.filter (fun stop => negb (same_id i stop)) stops = stops.
Proof.
  unfold stop_ids. induction stops as [|stop stops IH]; cbn; [done|].
  rewrite not_elem_of_cons. intros [Hne Hnot].
  destruct (same_id i stop) eqn:E; cbn.
  - apply same_id_true in E. congruence.
  - by rewrite IH.
Qed.

Lemma elem_of_filter_ids i stops stop :
  stop ∈ List.filter (fun stop => negb (same_id i stop)) stops ↔
  stop ∈ stops ∧ Location.id stop ≠ i.
Proof.
  rewrite !list_elem_of_In, filter_In, negb_true_iff.
  rewrite <- not_true_iff_false, same_id_true. done.
Qed.

Lemma filter_sublist {A} (f : A → bool) (l : list A) :
  List.filter f l `sublist_of` l.
Proof.
  induction l as [|x l IH]; cbn; [done|]. destruct (f x); by constructor.
Qed.

Lemma with_stops_same selectedCities :
  with_stops selectedCities (SelectedCities.stops selectedCities) = selectedCities.
Proof. by destruct selectedCities. Qed.

(** X1.  [addStop] keeps the ids of the stops pairwise different; afterwards
    a stop with the location's id is in the list, the stops that were there
    are still its first entries, and the selections are untouched.  A
    location whose id is already present changes nothing and renders
    nothing. *)
Theorem addStop_keeps_ids_distinct (location : Location)
    (selectedCities : SelectedCities.t) :
  let stops := SelectedCities.stops selectedCities in
  let after := (addStop location selectedCities).1 in
  (NoDup (stop_ids stops) → NoDup (stop_ids (SelectedCities.stops after))) ∧
  Location.id location ∈ stop_ids (SelectedCities.stops after) ∧
  stops `prefix_of` SelectedCities.stops after ∧
  (Location.id location ∈ stop_ids stops → addStop location selectedCities = (selectedCities, [])) ∧
  SelectedCities.origin after = SelectedCities.origin selectedCities ∧
  SelectedCities.destination after = SelectedCities.destination selectedCities ∧
  SelectedCities.start after = SelectedCities.start selectedCities.
Proof.
  cbv zeta. unfold addStop.
  destruct (existsb _ _) eqn:E; cbn.
  - apply existsb_same_id in E. repeat split; try done.
  - apply not_true_iff_false in E. rewrite existsb_same_id in E.
    unfold stop_ids in *. rewrite map_app. cbn. repeat split; try done.
    + intros Hnd. apply NoDup_app. split; [done|]. split.
      * intros x Hx ->%list_elem_of_singleton. done.
      * apply NoDup_singleton.
    + rewrite elem_of_app, list_elem_of_singleton. auto.
    + by apply prefix_app_r.
Qed.

(** X2.  After [removeStop] no stop has the given id, every other stop is
    still there, in the order it had; removing the same id again changes
    nothing more, and removing an id no stop has leaves the selection
    state as it was. *)
Theorem removeStop_effect (locationId : Z) (selectedCities : SelectedCities.t) :
  let stops := SelectedCities.stops selectedCities in
  let after := (removeStop locationId selectedCities).1 in
  (locationId ∉ stop_ids (SelectedCities.stops after)) ∧
  (∀ stop, stop ∈ SelectedCities.stops after ↔
           (stop ∈ stops ∧ Location.id stop ≠ locationId)) ∧
  sublist (SelectedCities.stops after) stops ∧
  removeStop locationId after = removeStop locationId selectedCities ∧
  (locationId ∉ stop_ids stops → after = selectedCities).
Proof.
  cbv zeta. unfold removeStop. cbn.
  assert (locationId ∉ stop_ids
            (List.filter (fun stop => negb (same_id locationId stop))
               (SelectedCities.stops selectedCities))) as Hnot.
  { unfold stop_ids. rewrite list_elem_of_fmap. intros (stop & -> & H).
    apply elem_of_filter_ids in H. by destruct H. }
  split; [done|]. split; [apply elem_of_filter_ids|]. split.
  { apply filter_sublist. }
  split.
  - rewrite (filter_other_ids _ _ Hnot). reflexivity.
  - intros H. rewrite filter_other_ids by done. apply with_stops_same.
Qed.

Lemma filter_delete i k stop stops :
  stops !! k = Some stop → Location.id stop = i → NoDup (stop_ids stops) →
  List.filter (fun stop => negb (same_id i stop)) stops = delete k stops.
Proof.
  revert k. induction stops as [|x stops IH]; intros k Hk Hid Hnd; [done|].
  unfold stop_ids in Hnd. cbn in Hnd. apply NoDup_cons in Hnd as [Hx Hnd].
  destruct k as [|k]; cbn in *.
  - injection Hk as ->. rewrite (proj2 (same_id_true i stop) Hid). cbn.
    apply filter_other_ids. by rewrite <- Hid.
  - destruct (same_id i x) eqn:E; cbn.
    + apply same_id_true in E. exfalso. apply Hx. rewrite E, <- Hid.
      apply list_elem_of_fmap. exists stop. split; [done|].
      by eapply list_elem_of_lookup_2.
    + f_equal. by apply IH.
Qed.

(** X3.  When the ids are pairwise different, the Remove button of the
    [k]-th entry deletes exactly the [k]-th stop, from the state and from
    the rendered list, which gets one entry shorter. *)
Theorem removeStop_deletes_clicked (selectedCities : SelectedCities.t)
    (k : nat) (stop : Location) :
  SelectedCities.stops selectedCities !! k = Some stop →
  NoDup (stop_ids (SelectedCities.stops selectedCities)) →
  removeStop (Location.id stop) selectedCities =
    (with_stops selectedCities (delete k (SelectedCities.stops selectedCities)),
     [RenderStops (delete k (updateStopsList (SelectedCities.stops selectedCities)))]) ∧
  S (length (SelectedCities.stops (removeStop (Location.id stop) selectedCities).1)) =
    length (SelectedCities.stops selectedCities).
Proof.
  intros Hk Hnd. unfold removeStop. rewrite (filter_delete _ k stop) by done.
  split.
  - f_equal. f_equal. f_equal. unfold updateStopsList.
    clear. revert k. induction (SelectedCities.stops selectedCities) as [|x l IH];
      intros [|k]; cbn; try done. by rewrite IH.
  - cbn. rewrite length_delete by eauto.
    apply lookup_lt_Some in Hk. lia.
Qed.

(** X4.  Adding a location with a fresh id and removing that id again
    gives back the selection state one started from. *)
Theorem addStop_removeStop_round_trip (location : Location)
    (selectedCities : SelectedCities.t) :
  Location.id location ∉ stop_ids (SelectedCities.stops selectedCities) →
  (removeStop (Location.id location) (addStop location selectedCities).1).1 =
  selectedCities.
Proof.
  intros Hfresh. unfold addStop.
  destruct (existsb _ _) eqn:E.
  { apply existsb_same_id in E. done. }
  unfold removeStop. cbn. rewrite List.filter_app. cbn.
  rewrite (proj2 (same_id_true _ location) eq_refl). cbn.
  rewrite app_nil_r, filter_other_ids by done.
  by destruct selectedCities.
Qed.
End Stops.

Section Selections.
Context {RT : Runtime}.
Local Open Scope float_scope.

(** X5.  Typing in a location field discards that field's selection
    (also one just made by [selectCity]), so submitting the shipping form
    after editing the origin or the destination, or the route form after
    editing the start, only alerts. *)
Theorem edited_field_blocks_submit (selectedCities : SelectedCities.t)
    (weightValue shippingTypeValue suggestionsId : string) (location : Location) :
  shippingForm_submit (on_input "origin" selectedCities) weightValue shippingTypeValue =
    [Alert "Please select valid Canadian locations and fill in all fields"] ∧
  shippingForm_submit (on_input "destination" selectedCities) weightValue shippingTypeValue =
    [Alert "Please select valid Canadian locations and fill in all fields"] ∧
  routeForm_submit (on_input "startLocation" selectedCities) =
    [RouteAlert "Please select a valid Canadian start location"] ∧
  (∀ inputId, inputId ≠ "stopInput"%string →
     on_input inputId (selectCity inputId suggestionsId location selectedCities).1 =
     on_input inputId selectedCities).
Proof.
  split; [|split; [|split]].
  - unfold shippingForm_submit. cbn. done.
  - unfold shippingForm_submit. cbn. by destruct (SelectedCities.origin _).
  - reflexivity.
  - intros inputId Hne. unfold selectCity.
    destruct (String.eqb_spec inputId "stopInput") as [->|_]; [done|].
    unfold on_input, with_selection. cbn.
    destruct (String.eqb inputId "origin"); [done|].
    destruct (String.eqb inputId "destination"); [done|].
    destruct (String.eqb inputId "startLocation"); done.
Qed.

(** X6.  [selectCity] records the location under the field it was chosen
    for and leaves the other selections and the stops alone; for the stop
    field it adds a stop; for any other input id it records nothing.  Except
    for the stop field it does what the declaration it replaces does. *)
Theorem selectCity_sets_one_field (suggestionsId : string) (location : Location)
    (selectedCities : SelectedCities.t) :
  (selectCity "origin" suggestionsId location selectedCities).1 =
    {| SelectedCities.origin := Some location;
       SelectedCities.destination := SelectedCities.destination selectedCities;
       SelectedCities.start := SelectedCities.start selectedCities;
       SelectedCities.stops := SelectedCities.stops selectedCities |} ∧
  (selectCity "destination" suggestionsId location selectedCities).1 =
    {| SelectedCities.origin := SelectedCities.origin selectedCities;
       SelectedCities.destination := Some location;
       SelectedCities.start := SelectedCities.start selectedCities;
       SelectedCities.stops := SelectedCities.stops selectedCities |} ∧
  (selectCity "startLocation" suggestionsId location selectedCities).1 =
    {| SelectedCities.origin := SelectedCities.origin selectedCities;
       SelectedCities.destination := SelectedCities.destination selectedCities;
       SelectedCities.start := Some location;
       SelectedCities.stops := SelectedCities.stops selectedCities |} ∧
  (selectCity "stopInput" suggestionsId location selectedCities).1 =
    (addStop location selectedCities).1 ∧
  (∀ inputId, inputId ∉ ["origin"; "destination"; "startLocation"; "stopInput"]%string →
     (selectCity inputId suggestionsId location selectedCities).1 = selectedCities) ∧
  (∀ inputId, inputId ≠ "stopInput"%string →
     selectCity inputId suggestionsId location selectedCities =
     selectCity_declared inputId suggestionsId location selectedCities).
Proof.
  repeat split; try reflexivity.
  - unfold selectCity. cbn. by destruct (addStop location selectedCities).
  - intros inputId H. rewrite !not_elem_of_cons in H. destruct H as (H1 & H2 & H3 & H4 & _).
    unfold selectCity, with_selection.
    apply String.eqb_neq in H1, H2, H3, H4. by rewrite H1, H2, H3, H4.
  - intros inputId H. unfold selectCity. apply String.eqb_neq in H. by rewrite H.
Qed.
End Selections.

Section RouteForm.
Context {RT : Runtime}.
Local Open Scope float_scope.

Lemma standard_segment p q :
  calculateShippingCost p q 50 "standard" =
  Normal {| cost := 18 + dist p q * 0.65 + 50 * 0.15;
            distance := dist p q; deliveryDays := Some (3, 5) |}.
Proof. by rewrite (calculateShippingCost_own _ _ _ _ standard). Qed.

Lemma cost_loop_five route totalCost :
  cost_loop route totalCost 5 = Normal (legs_cost route totalCost, 5).
Proof.
  revert totalCost. induction route as [|p route IH]; intros totalCost; [done|].
  destruct route as [|q route]; [done|].
  change (cost_loop (p :: q :: route) totalCost 5) with
    (match calculateShippingCost p q 50 "standard" with
     | Normal segmentCost =>
         match deliveryDays segmentCost with
         | Some (_, d1) =>
             cost_loop (q :: route) (totalCost + cost segmentCost) (Math_max 5 d1)
         | None => ThrowTypeError
         end
     | ThrowTypeError => ThrowTypeError
     end).
  rewrite standard_segment. cbn [deliveryDays cost].
  change (Math_max 5 5) with 5. rewrite IH. reflexivity.
Qed.

Lemma cost_loop_start p q route :
  cost_loop (p :: q :: route) 0 0 = Normal (legs_cost (p :: q :: route) 0, 5).
Proof.
  change (cost_loop (p :: q :: route) 0 0) with
    (match calculateShippingCost p q 50 "standard" with
     | Normal segmentCost =>
         match deliveryDays segmentCost with
         | Some (_, d1) =>
             cost_loop (q :: route) (0 + cost segmentCost) (Math_max 0 d1)
         | None => ThrowTypeError
         end
     | ThrowTypeError => ThrowTypeError
     end).
  rewrite standard_segment. cbn [deliveryDays cost].
  change (Math_max 0 5) with 5. rewrite cost_loop_five. reflexivity.
Qed.

Lemma route_steps_spec index route :
  route_steps index route =
  zip (seq (S index) (length route)) (map Location.name route).
Proof.
  revert index. induction route as [|p route IH]; intros index; [done|].
  cbn. rewrite IH. by rewrite Nat.add_1_r.
Qed.

(** What the handler renders once it has a start and a stop. *)
Lemma routeForm_submit_rendered (selectedCities : SelectedCities.t)
    (start : Location) :
  SelectedCities.start selectedCities = Some start →
  SelectedCities.stops selectedCities ≠ [] →
  let plan := route (optimizeRoute start (SelectedCities.stops selectedCities)) in
  routeForm_submit selectedCities =
    [ RenderRoute (zip (seq 1 (S (length (SelectedCities.stops selectedCities))))
                       (map Location.name plan));
      SetTotalDistance (sum_of_legs plan);
      SetTotalCost (legs_cost plan 0);
      SetTotalTime 5;
      ShowRouteResults ].
Proof.
  intros Hstart Hstops. cbv zeta. unfold routeForm_submit. rewrite Hstart.
  destruct (SelectedCities.stops selectedCities) as [|s0 stops] eqn:E; [done|].
  destruct (optimizeRoute_spec start (s0 :: stops)) as (order & Heq & Hperm & _).
  rewrite Heq. cbn [route totalDistance].
  assert (length order = S (length stops)) as Hlen.
  { by rewrite Hperm. }
  destruct order as [|o1 order]; [done|].
  rewrite cost_loop_start, route_steps_spec.
  unfold sum_of_legs. rewrite path_sum_legs.
  change (length (start :: o1 :: order)) with (S (length (o1 :: order))).
  rewrite Hlen. reflexivity.
Qed.

(** X8.  With a start and at least one stop, the route form renders the
    optimised route as steps numbered from 1, one more than there are stops,
    the sum of its rounded legs, the sum of the standard-tier prices of its
    legs at 50 pounds, and a total time of 5 days, whatever the route. *)
Theorem routeForm_submit_plan (selectedCities : SelectedCities.t)
    (start : Location) :
  SelectedCities.start selectedCities = Some start →
  SelectedCities.stops selectedCities ≠ [] →
  let plan := route (optimizeRoute start (SelectedCities.stops selectedCities)) in
  routeForm_submit selectedCities =
    [ RenderRoute (zip (seq 1 (S (length (SelectedCities.stops selectedCities))))
                       (map Location.name plan));
      SetTotalDistance (sum_of_legs plan);
      SetTotalCost (legs_cost plan 0);
      SetTotalTime 5;
      ShowRouteResults ].
Proof. apply routeForm_submit_rendered. Qed.

(** X7.  The route form alerts when no start is selected, or, with a start,
    when there is no stop; it alerts in no other case, and it never ends in
    an exception. *)
Theorem routeForm_submit_alerts (selectedCities : SelectedCities.t) :
  (SelectedCities.start selectedCities = None →
   routeForm_submit selectedCities =
   [RouteAlert "Please select a valid Canadian start location"]) ∧
  (SelectedCities.start selectedCities ≠ None →
   SelectedCities.stops selectedCities = [] →
   routeForm_submit selectedCities = [RouteAlert "Please add at least one stop"]) ∧
  (∀ msg, RouteAlert msg ∈ routeForm_submit selectedCities →
          SelectedCities.start selectedCities = None ∨
          SelectedCities.stops selectedCities = []) ∧
  RouteTypeError ∉ routeForm_submit selectedCities.
Proof.
  destruct (SelectedCities.start selectedCities) as [start|] eqn:Es.
  2: { unfold routeForm_submit. rewrite Es. repeat split; try done; auto.
       rewrite list_elem_of_singleton. done. }
  destruct (SelectedCities.stops selectedCities) as [|s0 stops] eqn:E.
  { unfold routeForm_submit. rewrite Es, E. repeat split; try done; auto.
    rewrite list_elem_of_singleton. done. }
  rewrite (routeForm_submit_rendered selectedCities start Es) by (by rewrite E).
  repeat split; try done.
  - intros msg. rewrite !elem_of_cons, elem_of_nil. naive_solver.
  - rewrite !elem_of_cons, elem_of_nil. naive_solver.
Qed.
End RouteForm.

Section GeocodingMore.
Context {RT : Runtime}.

(** X9.  A call of [geocodeCanadianLocation] whose query the cache answers
    changes nothing: no request, no cache update.  Otherwise it makes exactly
    one request, for the query followed by ", Canada", consumes one answer,
    and touches no cache entry but the query's. *)
Theorem geocode_requests (query : string) (w : World) :
  let after := (geocodeCanadianLocation query w).2 in
  (js_get (World.cityCache w) query ≠ Undefined → after = w) ∧
  (js_get (World.cityCache w) query = Undefined →
   World.requests after =
     World.requests w ++
       [("https://nominatim.openstreetmap.org/search?format=json&q=" +:+
         encodeURIComponent (query +:+ ", Canada") +:+
         "&countrycodes=ca&limit=8&addressdetails=1")%string] ∧
   World.network after = tail (World.network w) ∧
   ∀ other, other ≠ query →
            World.cityCache after !! other = World.cityCache w !! other).
Proof.
  cbv zeta. unfold geocodeCanadianLocation.
  destruct (js_get (World.cityCache w) query) eqn:E; cbn; [by split..|].
  split; [done|]. intros _.
  assert (request_url query =
          ("https://nominatim.openstreetmap.org/search?format=json&q=" +:+
           encodeURIComponent (query +:+ ", Canada") +:+
           "&countrycodes=ca&limit=8&addressdetails=1")%string) as <-.
  { unfold request_url, searchQuery, searchQuery_branch.
    by destruct (isPostalCode query). }
  destruct (World.network w) as [|[| |data] net]; cbn; repeat split; try done.
  intros other Hne. by rewrite lookup_insert_ne.
Qed.

Lemma geocode_keeps_coordinates query w :
  cache_has_coordinates w →
  cache_has_coordinates (geocodeCanadianLocation query w).2 ∧
  ∀ l, (geocodeCanadianLocation query w).1 = Locations l →
       Forall (fun x => has_coordinates x = true) l.
Proof.
  intros Hc. unfold geocodeCanadianLocation, js_get.
  destruct (World.cityCache w !! query) as [cached|] eqn:E; cbn.
  { split; [done|]. intros l [= <-]. by eapply Hc. }
  destruct (bool_decide _); cbn; [by split|].
  destruct (World.network w) as [|[| |data] net]; cbn;
    try (split; [done | by intros l [= <-]]).
  assert (Forall (fun x => has_coordinates x = true)
            (filter (fun l => has_coordinates l = true) (map to_location data))) as HF.
  { apply Forall_forall. intros x Hx. by apply list_elem_of_filter in Hx as [Hx _]. }
  split; [|by intros l [= <-]].
  intros q l. unfold cache_has_coordinates in *. cbn.
  destruct (decide (query = q)) as [->|Hne].
  - rewrite lookup_insert_eq. by intros [= <-].
  - rewrite lookup_insert_ne by done. apply Hc.
Qed.

Lemma geocode_all_keeps_coordinates queries w :
  cache_has_coordinates w → cache_has_coordinates (geocode_all queries w).
Proof.
  revert w. induction queries as [|q queries IH]; intros w Hc; [done|].
  cbn. apply IH. by apply geocode_keeps_coordinates.
Qed.

(** X10.  Starting from a cache whose locations have truthy coordinates
    (the empty cache, for one), every location any call returns has a
    latitude and a longitude that are neither NaN nor zero: an answer
    without them, or on the equator or the prime meridian, is dropped. *)
Theorem geocode_results_have_coordinates (queries : list string) (query : string)
    (w : World) (l : list Location) :
  cache_has_coordinates w →
  (geocodeCanadianLocation query (geocode_all queries w)).1 = Locations l →
  Forall (fun x => truthy_number (Location.lat x) = true ∧
                   truthy_number (Location.lng x) = true) l.
Proof.
  intros Hc Hl.
  pose proof (geocode_all_keeps_coordinates queries w Hc) as Hc'.
  destruct (geocode_keeps_coordinates query _ Hc') as [_ H].
  eapply Forall_impl; [by apply H|]. cbn. intros x.
  unfold has_coordinates. by rewrite andb_true_iff.
Qed.
End GeocodingMore.

Section Tiers.
Context {RT : Runtime}.

Lemma shippingRates_inherited key :
  key ∈ Object_prototype_keys → js_get shippingRates key = Inherited key.
Proof.
  unfold Object_prototype_keys. rewrite !elem_of_cons, elem_of_nil.
  intros H. repeat (destruct H as [->|H]; [reflexivity|]). done.
Qed.

(** X11.  [calculateShippingCost] prices exactly the three tiers of the
    table.  For a tier name that [Object.prototype] defines it returns a
    cost of NaN and no delivery days; for any other name it throws a
    [TypeError]. *)
Theorem calculateShippingCost_tiers (origin destination : Location)
    (weight : float) (shippingType : string) :
  (shippingType ∈ ["standard"; "express"; "overnight"]%string →
   ∃ rates, shippingRates !! shippingType = Some rates ∧
     calculateShippingCost origin destination weight shippingType =
     Normal {| cost := (baseCost rates + dist origin destination * perKm rates +
                        weight * perPound rates)%float;
               distance := dist origin destination;
               deliveryDays := Some (days rates) |}) ∧
  (shippingType ∈ Object_prototype_keys →
   calculateShippingCost origin destination weight shippingType =
   Normal {| cost := nan; distance := dist origin destination;
             deliveryDays := None |}) ∧
  (shippingType ∉ ["standard"; "express"; "overnight"]%string →
   shippingType ∉ Object_prototype_keys →
   calculateShippingCost origin destination weight shippingType = ThrowTypeError).
Proof.
  split; [|split].
  - rewrite !elem_of_cons, elem_of_nil. intros [->|[->|[->|[]]]].
    + exists standard. split; [done|]. by apply calculateShippingCost_own.
    + exists express. split; [done|]. by apply calculateShippingCost_own.
    + exists overnight. split; [done|]. by apply calculateShippingCost_own.
  - intros H. unfold calculateShippingCost. by rewrite shippingRates_inherited.
  - intros H1 H2. unfold calculateShippingCost, js_get.
    destruct (shippingRates !! shippingType) as [rates|] eqn:E.
    + apply shippingRates_lookup in E. exfalso. apply H1.
      rewrite !elem_of_cons. naive_solver.
    + by rewrite bool_decide_eq_false_2.
Qed.
End Tiers.

Section PostalMore.

Lemma remove_white_space_app a b :
  RegExp.remove_white_space (a +:+ b) =
  (RegExp.remove_white_space a +:+ RegExp.remove_white_space b)%string.
Proof.
  induction a as [|c a IH]; [done|].
  change (String c a +:+ b)%string with (String c (a +:+ b)).
  cbn [RegExp.remove_white_space]. rewrite IH.
  by destruct (RegExp.white_space c).
Qed.

Lemma remove_white_space_blank ws :
  (∀ c, c ∈ String.list_ascii_of_string ws → RegExp.white_space c = true) →
  RegExp.remove_white_space ws = ""%string.
Proof.
  induction ws as [|c ws IH]; cbn; [done|]. intros H.
  rewrite (H c) by (by left). apply IH. intros c' Hc'. apply H. by right.
Qed.

Lemma remove_white_space_clean s c :
  c ∈ String.list_ascii_of_string (RegExp.remove_white_space s) →
  RegExp.white_space c = false.
Proof.
  induction s as [|x s IH]; cbn; [by intros ?%elem_of_nil|].
  destruct (RegExp.white_space x) eqn:E; cbn; [done|].
  rewrite elem_of_cons. intros [->|H]; auto.
Qed.

(** X12.  White space anywhere in the input makes no difference to
    [isPostalCode]. *)
Theorem isPostalCode_ignores_white_space (a ws b : string) :
  (∀ c, c ∈ String.list_ascii_of_string ws → RegExp.white_space c = true) →
  isPostalCode (a +:+ ws +:+ b) = isPostalCode (a +:+ b).
Proof.
  intros H. unfold isPostalCode.
  by rewrite !remove_white_space_app, (remove_white_space_blank ws H).
Qed.

Lemma hyphen_only sep :
  RegExp.space_or_hyphen sep = true → RegExp.white_space sep = false →
  sep = "-"%char.
Proof.
  unfold RegExp.space_or_hyphen, RegExp.white_space, RegExp.code.
  intros H1 H2. rewrite <- (ascii_N_embedding sep).
  apply orb_true_iff in H1 as [H1|H1]; apply N.eqb_eq in H1.
  - rewrite H1 in H2. discriminate.
  - by rewrite H1.
Qed.

(** X13.  An input [isPostalCode] accepts has, apart from white space,
    six characters (letter, digit, letter, digit, letter, digit) or those
    six with a hyphen in the middle: the space the pattern allows there can
    never be what matches, since the white space is removed first. *)
Theorem isPostalCode_accepts (input : string) :
  isPostalCode input = true →
  ∃ c1 c2 c3 c4 c5 c6 : ascii,
    RegExp.letter c1 = true ∧ RegExp.digit c2 = true ∧ RegExp.letter c3 = true ∧
    RegExp.digit c4 = true ∧ RegExp.letter c5 = true ∧ RegExp.digit c6 = true ∧
    (RegExp.remove_white_space input =
       String c1 (String c2 (String c3 (String c4 (String c5 (String c6 "")))))
     ∨ RegExp.remove_white_space input =
       String c1 (String c2 (String c3 (String "-"
         (String c4 (String c5 (String c6 ""))))))).
Proof.
  unfold isPostalCode. rewrite postalCodeRegex_shape.
  intros (c1 & c2 & c3 & c4 & c5 & c6 & H1 & H2 & H3 & H4 & H5 & H6 & Hs).
  exists c1, c2, c3, c4, c5, c6. repeat split; try done.
  destruct Hs as [Hs|(sep & Hsep & Hs)]; [by left|right].
  rewrite Hs. assert (sep = "-"%char) as ->; [|done].
  apply hyphen_only; [done|].
  apply (remove_white_space_clean input). rewrite Hs. cbn.
  rewrite !elem_of_cons. auto.
Qed.
End PostalMore.

Section DebounceProps.
Context {A : Type} (wait : Z).
Import Debounce.

Lemma paired_init : @paired A wait (init (A:=A)).
Proof. split; [done|]. intros i t a H. cbn in H. by destruct i. Qed.

Lemma lookup_snoc_Some {B} (l : list B) (x y : B) i :
  (l ++ [x]) !! i = Some y →
  l !! i = Some y ∨ (i = length l ∧ x = y).
Proof.
  intros H. destruct (decide (i < length l)) as [Hlt|Hge].
  - left. by rewrite lookup_app_l in H.
  - right. rewrite lookup_app_r in H by lia.
    destruct (i - length l) as [|n] eqn:E; cbn in H; [|by destruct n].
    injection H as ->. split; [lia|done].
Qed.

Lemma paired_step (s : state (A:=A)) e :
  @paired A wait s → @paired A wait (step wait s e).
Proof.
  intros Hs. pose proof Hs as [Ht Hl]. destruct e as [args|ms|]; cbn.
  - split; cbn.
    + intros due a [= <- <-]. exists (now s). by rewrite last_snoc.
    + intros i t a H. apply lookup_snoc_Some in H as [H|[_ [=]]].
      destruct (Hl i t a H) as (j & t0 & -> & Hj & Hle).
      exists j, t0. split; [done|]. split; [|done]. by apply lookup_app_l_Some.
  - split; cbn; [exact Ht | exact Hl].
  - unfold run_timers. destruct (timeout s) as [[due a]|] eqn:E; [|exact Hs].
    destruct (Z.leb_spec due (now s)) as [Hdue|Hnot]; [|exact Hs].
    split; cbn; [done|].
    intros i t a' H. apply lookup_snoc_Some in H as [H|[-> [= <- <-]]].
    + destruct (Hl i t a' H) as (j & t0 & -> & Hj & Hle).
      exists j, t0. split; [done|]. split; [|done]. by apply lookup_app_l_Some.
    + destruct (Ht due a eq_refl) as (t0 & Hlast & ->).
      rewrite last_lookup in Hlast.
      destruct (length (log s)) as [|n] eqn:En.
      { apply nil_length_inv in En. by rewrite En in Hlast. }
      exists n, t0. split; [done|]. split; [|done].
      apply lookup_app_l_Some. by rewrite <- Hlast.
Qed.

Lemma paired_run events : @paired A wait (run wait events).
Proof.
  unfold run. generalize paired_init. generalize (init (A:=A)).
  induction events as [|e events IH]; intros s Hs; [done|].
  cbn. apply IH. by apply paired_step.
Qed.

(** X14.  A debounced function calls [func] only with the arguments of the
    latest call, at least [wait] milliseconds after it, and at most once
    for it: in the log every call of [func] directly follows the call whose
    arguments it carries. *)
Theorem debounce_invokes_latest_call (events : list event) (i : nat) (t : Z) (a : A) :
  log (run wait events) !! i = Some (Invoked t a) →
  ∃ j t0, i = S j ∧
          log (run wait events) !! j = Some (Called t0 a) ∧
          (t0 + timer_delay wait ≤ t)%Z.
Proof. apply paired_run. Qed.

Lemma invocations_snoc (l : list (entry (A:=A))) e :
  invocations (l ++ [e]) = invocations l ++ invocations [e].
Proof. unfold invocations. by rewrite flat_map_app. Qed.

Lemma burst_quiet (calls : list (A * Z)) s :
  (∀ c, c ∈ calls → (0 ≤ c.2 < timer_delay wait)%Z) →
  invocations (log (fold_left (step wait) (burst wait calls) s)) =
  invocations (log s).
Proof.
  revert s. induction calls as [|[a d] calls IH]; intros s H; [done|].
  cbn. rewrite IH.
  - unfold run_timers. cbn.
    assert (0 ≤ d < timer_delay wait)%Z as Hd by (apply (H (a, d)); by left).
    destruct (Z.leb_spec (now s + timer_delay wait) (now s + 0 `max` d)) as [Hle|_].
    { unfold timer_delay in *. lia. }
    cbn [log]. rewrite invocations_snoc. cbn. by rewrite app_nil_r.
  - intros c Hc. apply H. by right.
Qed.

(** X15.  A burst of calls, each followed by less than the delay, leads to
    no call of [func]; a last call followed by the full delay leads to
    exactly one, with the last call's arguments. *)
Theorem debounce_burst (calls : list (A * Z)) (a : A) (d : Z) :
  (∀ c, c ∈ calls → (0 ≤ c.2 < timer_delay wait)%Z) →
  (timer_delay wait ≤ d)%Z →
  ∃ t, invocations
         (log (run wait (burst wait calls ++ [Call a; Elapse d; RunTimers]))) =
       [(t, a)].
Proof.
  intros Hcalls Hd. unfold run. rewrite fold_left_app.
  pose proof (burst_quiet calls init Hcalls) as Hq.
  set (s := fold_left (step wait) (burst wait calls) init) in *.
  exists (now s + Z.max 0 d)%Z.
  cbn [fold_left step]. unfold run_timers, executedFunction.
  cbn [timeout now log].
  destruct (Z.leb_spec (now s + timer_delay wait) (now s + 0 `max` d)) as [_|Hlt].
  2: { unfold timer_delay in *. lia. }
  cbn [log]. rewrite !invocations_snoc, Hq. reflexivity.
Qed.
End DebounceProps.

(* ===================================================================== *)
(** * The rest of the page on concrete inputs *)
(* ===================================================================== *)

Lemma removeStop_deletes_clicked_witness :
  removeStop (Location.id ottawa) three_stops =
    (with_stops three_stops (delete 1%nat (SelectedCities.stops three_stops)),
     [RenderStops
        (delete 1%nat (updateStopsList (SelectedCities.stops three_stops)))]) ∧
  S (length (SelectedCities.stops
               (removeStop (Location.id ottawa) three_stops).1)) =
  length (SelectedCities.stops three_stops).
Proof.
  apply (removeStop_deletes_clicked three_stops 1 ottawa); [reflexivity|].
  apply (bool_decide_unpack _). vm_compute. reflexivity.
Defined.

Lemma addStop_removeStop_round_trip_witness :
  (removeStop (Location.id toronto) (addStop toronto three_stops).1).1 = three_stops.
Proof.
  apply (addStop_removeStop_round_trip toronto three_stops).
  apply (bool_decide_unpack _). vm_compute. reflexivity.
Defined.

Lemma routeForm_submit_plan_witness :
  routeForm_submit (RT:=RefRuntime) three_stops =
    [ RenderRoute
        (zip (seq 1 4)
           (map Location.name
              (route (optimizeRoute (RT:=RefRuntime) toronto
                        [montreal; ottawa; kingston]))));
      SetTotalDistance
        (sum_of_legs (RT:=RefRuntime)
           (route (optimizeRoute (RT:=RefRuntime) toronto
                     [montreal; ottawa; kingston])));
      SetTotalCost
        (legs_cost (RT:=RefRuntime)
           (route (optimizeRoute (RT:=RefRuntime) toronto
                     [montreal; ottawa; kingston])) 0);
      SetTotalTime 5;
      ShowRouteResults ].
Proof.
  apply (routeForm_submit_plan (RT:=RefRuntime) three_stops toronto);
    [reflexivity | discriminate].
Defined.

Lemma geocode_results_have_coordinates_witness :
  ∃ l, (geocodeCanadianLocation (RT:=RefRuntime) "Ottawa"
          (geocode_all (RT:=RefRuntime) [] online)).1 = Locations l ∧
       l ≠ [] ∧
       Forall (fun x => truthy_number (Location.lat x) = true ∧
                        truthy_number (Location.lng x) = true) l.
Proof.
  eexists. split; [vm_compute; reflexivity|]. split; [discriminate|].
  apply (geocode_results_have_coordinates (RT:=RefRuntime) [] "Ottawa" online).
  - intros query l H. vm_compute in H. discriminate.
  - vm_compute. reflexivity.
Defined.

Lemma isPostalCode_ignores_white_space_witness :
  isPostalCode ("K1A" +:+ " " +:+ "0B1") = isPostalCode ("K1A" +:+ "0B1").
Proof.
  apply (isPostalCode_ignores_white_space "K1A" " " "0B1").
  intros c H. cbn in H. apply list_elem_of_singleton in H. by subst.
Defined.

Lemma isPostalCode_accepts_witness :
  ∃ c1 c2 c3 c4 c5 c6 : ascii,
    RegExp.letter c1 = true ∧ RegExp.digit c2 = true ∧ RegExp.letter c3 = true ∧
    RegExp.digit c4 = true ∧ RegExp.letter c5 = true ∧ RegExp.digit c6 = true ∧
    (RegExp.remove_white_space "k1a - 0b1" =
       String c1 (String c2 (String c3 (String c4 (String c5 (String c6 "")))))
     ∨ RegExp.remove_white_space "k1a - 0b1" =
       String c1 (String c2 (String c3 (String "-"
         (String c4 (String c5 (String c6 ""))))))).
Proof. apply (isPostalCode_accepts "k1a - 0b1"). vm_compute. reflexivity. Defined.

Lemma debounce_invokes_latest_call_witness :
  ∃ j t0, 2%nat = S j ∧
    Debounce.log
      (Debounce.run 300
         [Debounce.Call "ot"%string; Debounce.Elapse 100; Debounce.RunTimers;
          Debounce.Call "ott"%string; Debounce.Elapse 300; Debounce.RunTimers])
    !! j = Some (Debounce.Called t0 "ott"%string) ∧
    (t0 + timer_delay 300 ≤ 400)%Z.
Proof.
  apply (debounce_invokes_latest_call 300
           [Debounce.Call "ot"%string; Debounce.Elapse 100; Debounce.RunTimers;
            Debounce.Call "ott"%string; Debounce.Elapse 300; Debounce.RunTimers]
           2 400 "ott"%string).
  vm_compute. reflexivity.
Defined.

Lemma debounce_burst_witness :
  ∃ t, invocations
         (Debounce.log
            (Debounce.run 300
               (burst 300 [("o"%string, 50%Z); ("ot"%string, 120%Z)] ++
                [Debounce.Call "ott"%string; Debounce.Elapse 300;
                 Debounce.RunTimers]))) =
       [(t, "ott"%string)].
Proof.
  apply (debounce_burst 300 [("o"%string, 50%Z); ("ot"%string, 120%Z)]
           "ott"%string 300).
  - intros c H. rewrite !elem_of_cons, elem_of_nil in H.
    destruct H as [->|[->|[]]]; unfold timer_delay; cbn; lia.
  - unfold timer_delay. lia.
Defined.
